(** * fenics_adjoint.assembly: the overloaded [assemble] and [AssembleBlock]

    A shallow embedding of [src/fenics_adjoint/assembly.py].  The
    discretisation library ([backend], UFL) is an interface of total, pure
    operations; the Python objects that the code mutates (blocks, block
    outputs, the tape) live in an explicit store that every operation
    threads through a state-and-exception monad. *)

From stdpp Require Import base option list functions.
From stdpp Require strings gmap.

Set Default Proof Using "Type".

(** ** The discretisation library *)

(** The classes [isinstance] dispatches on.  [ClsOther] stands for any
    coefficient class that is none of [backend.Function],
    [backend.Constant], [backend.Expression]. *)
Inductive PyClass := ClsFunction | ClsConstant | ClsExpression | ClsOther.

#[global] Instance PyClass_eq_dec : EqDecision PyClass.
Proof. solve_decision. Defined.

(** What the code calls on [backend], [ufl] and [compat].  A failure of
    the library is not modelled: the operations are total. *)
Class Backend := {
  Form : Type;
  Coeff : Type;
  Direction : Type;
  Space : Type;
  Mesh : Type;
  Tensor : Type;
  Coeff_eq_dec : EqDecision Coeff;
  (* type(c) *)
  class_of : Coeff -> PyClass;
  (* form.coefficients() *)
  coefficients : Form -> list Coeff;
  (* backend.replace(form, mapping) *)
  replace : Form -> list (Coeff * Coeff) -> Form;
  (* backend.derivative(form, u, du) *)
  derivative : Form -> Coeff -> Direction -> Form;
  (* backend.assemble(form) *)
  backend_assemble : Form -> Tensor;
  (* backend.TestFunction(V) *)
  TestFunction : Space -> Direction;
  (* c.function_space() *)
  function_space : Coeff -> Space;
  (* c._ad_function_space(mesh) *)
  ad_function_space : Coeff -> Mesh -> Space;
  (* form.ufl_domain().ufl_cargo() *)
  ufl_domain_cargo : Form -> Mesh;
  (* compat.extract_mesh_from_form(form) *)
  extract_mesh_from_form : Form -> Mesh;
  (* isinstance(output, float) *)
  is_float : Tensor -> bool;
  (* seed * output *)
  mul : Tensor -> Tensor -> Tensor
}.

#[global] Existing Instance Coeff_eq_dec.

(** What [add_adj_output] and [add_hessian_output] receive: a bare value,
    or a list of (value, space) pairs for an Expression. *)
Inductive Contribution `{Backend} :=
| Bare (x : Tensor)
| Paired (l : list (Tensor * Space)).

(** Modelled from the spec: the additive merge of the accumulators behind
    [add_adj_output], [add_hessian_output] and [add_tlm_output], which
    belongs to the tape runtime, outside these sources.  The spec names
    the contract [accumulate(existing, contribution) -> merged] and says
    no more about it, so it is an interface here. *)
Class Accumulators `{Backend} := {
  accumulate : option Contribution -> Contribution -> Contribution;
  accumulate_tlm : option Tensor -> Tensor -> Tensor
}.

(** ** Python dictionaries keyed by coefficients *)

Section Dict.
Context {K V : Type} `{EqDecision K}.

(** [d[k] = v]: an existing key keeps its position. *)
Fixpoint dict_set (d : list (K * V)) (k : K) (v : V) : list (K * V) :=
  match d with
  | [] => [(k, v)]
  | (k', v') :: d' =>
      if decide (k = k') then (k', v) :: d' else (k', v') :: dict_set d' k v
  end.

(** [d.get(k, default)] *)
Fixpoint dict_get (d : list (K * V)) (k : K) (default : V) : V :=
  match d with
  | [] => default
  | (k', v') :: d' => if decide (k = k') then v' else dict_get d' k default
  end.
End Dict.

(** ** The store *)

Definition ref := nat.

Section Assembly.
Context `{B : Backend} `{A : !Accumulators}.

(** The block output of a coefficient (a dependency edge). *)
Record BlockOutput := mkBlockOutput {
  bo_output : Coeff;                       (* get_output() *)
  bo_saved_output : Coeff;                 (* get_saved_output() *)
  bo_adj_value : option Contribution;
  bo_tlm_value : option Direction;
  bo_hessian_value : option Contribution
}.

(** The block output of the assembled scalar (the output slot). *)
Record OutputSlot := mkOutputSlot {
  os_checkpoint : option Tensor;
  os_adj_value : option Tensor;
  os_tlm_value : option Tensor;
  os_hessian_value : option Tensor
}.

Record Block := mkBlock {
  form : Form;
  dependencies : list ref;
  outputs : list ref
}.

(** Objects are addressed by reference; a Python reference never
    dangles, so the three heaps are total. *)
Record State := mkState {
  blocks : ref -> Block;
  next_block : ref;
  edges : ref -> BlockOutput;
  slots : ref -> OutputSlot;
  next_slot : ref;
  tape : list ref;
  (* c.get_block_output() *)
  block_output_of : Coeff -> ref
}.

Definition set_blocks (f : (ref -> Block) -> ref -> Block) (s : State) : State :=
  mkState (f (blocks s)) (next_block s) (edges s) (slots s) (next_slot s)
          (tape s) (block_output_of s).
Definition set_next_block (n : ref) (s : State) : State :=
  mkState (blocks s) n (edges s) (slots s) (next_slot s)
          (tape s) (block_output_of s).
Definition set_edges (f : (ref -> BlockOutput) -> ref -> BlockOutput) (s : State) : State :=
  mkState (blocks s) (next_block s) (f (edges s)) (slots s) (next_slot s)
          (tape s) (block_output_of s).
Definition set_slots (f : (ref -> OutputSlot) -> ref -> OutputSlot) (s : State) : State :=
  mkState (blocks s) (next_block s) (edges s) (f (slots s)) (next_slot s)
          (tape s) (block_output_of s).
Definition set_next_slot (n : ref) (s : State) : State :=
  mkState (blocks s) (next_block s) (edges s) (slots s) n
          (tape s) (block_output_of s).
Definition set_tape (t : list ref) (s : State) : State :=
  mkState (blocks s) (next_block s) (edges s) (slots s) (next_slot s)
          t (block_output_of s).

(** ** State and exceptions *)

Inductive exn := IndexError | UnboundLocalError | TypeError.

Inductive outcome (A : Type) :=
| Ok (a : A)
| Raise (e : exn).
Global Arguments Ok {A} a.
Global Arguments Raise {A} e.

(** A raised exception keeps the store as it was when raised. *)
Definition M (A : Type) : Type := State -> outcome A * State.

Definition ret {A} (a : A) : M A := fun s => (Ok a, s).
Definition raise {A} (e : exn) : M A := fun s => (Raise e, s).
Definition bind {A C} (m : M A) (k : A -> M C) : M C :=
  fun s => match m s with
           | (Ok a, s') => k a s'
           | (Raise e, s') => (Raise e, s')
           end.
Definition gets {A} (f : State -> A) : M A := fun s => (Ok (f s), s).
Definition modify (f : State -> State) : M unit := fun s => (Ok tt, f s).

#[local] Notation "'let*' x ':=' m 'in' k" := (bind m (fun x => k))
  (at level 10, x name, m at level 100, k at level 200).

(** [for x in l: acc = body(acc, x)], the locals that survive an
    iteration being carried in [acc]. *)
Fixpoint for_each {A L} (body : L -> A -> M L) (acc : L) (l : list A) : M L :=
  match l with
  | [] => ret acc
  | x :: l' => let* acc' := body acc x in for_each body acc' l'
  end.

(** ** The tape runtime, as far as the code calls it *)

Definition isinstance (c : Coeff) (k : PyClass) : bool :=
  bool_decide (class_of c = k).

Definition get_output (r : ref) : M Coeff := gets (fun s => bo_output (edges s r)).
Definition get_saved_output (r : ref) : M Coeff :=
  gets (fun s => bo_saved_output (edges s r)).
Definition get_tlm_value (r : ref) : M (option Direction) :=
  gets (fun s => bo_tlm_value (edges s r)).

Definition get_dependencies (self : ref) : M (list ref) :=
  gets (fun s => dependencies (blocks s self)).
Definition get_form (self : ref) : M Form :=
  gets (fun s => form (blocks s self)).

(** [self.get_outputs()[0]] *)
Definition get_outputs_0 (self : ref) : M ref :=
  fun s => match outputs (blocks s self) with
           | [] => (Raise IndexError, s)
           | o :: _ => (Ok o, s)
           end.

Definition get_adj_output (o : ref) : M (option Tensor) :=
  gets (fun s => os_adj_value (slots s o)).
Definition get_hessian_value (o : ref) : M (option Tensor) :=
  gets (fun s => os_hessian_value (slots s o)).

Definition with_adj (v : option Contribution) (b : BlockOutput) : BlockOutput :=
  mkBlockOutput (bo_output b) (bo_saved_output b) v (bo_tlm_value b)
                (bo_hessian_value b).
Definition with_hessian (v : option Contribution) (b : BlockOutput) : BlockOutput :=
  mkBlockOutput (bo_output b) (bo_saved_output b) (bo_adj_value b)
                (bo_tlm_value b) v.
Definition with_tlm_output (v : option Tensor) (o : OutputSlot) : OutputSlot :=
  mkOutputSlot (os_checkpoint o) (os_adj_value o) v (os_hessian_value o).
Definition with_checkpoint (v : option Tensor) (o : OutputSlot) : OutputSlot :=
  mkOutputSlot v (os_adj_value o) (os_tlm_value o) (os_hessian_value o).

Definition adj_added (r : ref) (v : Contribution) (s : State) : State :=
  set_edges (fun h =>
    <[r := with_adj (Some (accumulate (bo_adj_value (h r)) v)) (h r)]> h) s.
Definition hessian_added (r : ref) (v : Contribution) (s : State) : State :=
  set_edges (fun h =>
    <[r := with_hessian (Some (accumulate (bo_hessian_value (h r)) v)) (h r)]> h) s.
Definition tlm_added (o : ref) (v : Tensor) (s : State) : State :=
  set_slots (fun h =>
    <[o := with_tlm_output (Some (accumulate_tlm (os_tlm_value (h o)) v)) (h o)]> h) s.
Definition checkpoint_set (o : ref) (v : Tensor) (s : State) : State :=
  set_slots (fun h => <[o := with_checkpoint (Some v) (h o)]> h) s.

Definition add_adj_output (r : ref) (v : Contribution) : M unit :=
  modify (adj_added r v).
Definition add_hessian_output (r : ref) (v : Contribution) : M unit :=
  modify (hessian_added r v).
Definition add_tlm_output (o : ref) (v : Tensor) : M unit :=
  modify (tlm_added o v).

(** [a * output] where [a] may be [None]. *)
Definition py_mul (a : option Tensor) (output : Tensor) : M Tensor :=
  match a with
  | Some x => ret (mul x output)
  | None => raise TypeError
  end.

(** ** AssembleBlock *)

(** The loop shared by the four operations:
    [replaced_coeffs[coeff] = block_output.get_saved_output()]. *)
Definition replaced_coeffs_of (deps : list ref) : M (list (Coeff * Coeff)) :=
  for_each (fun replaced_coeffs block_output =>
              let* coeff := get_output block_output in
              let* saved := get_saved_output block_output in
              ret (dict_set replaced_coeffs coeff saved))
           [] deps.

(** One iteration of the loop of [evaluate_adj].  The local [dc]
    survives from one iteration to the next; it is unbound ([None])
    before the first assignment. *)
Definition adj_body (self_form form' : Form) (replaced_coeffs : list (Coeff * Coeff))
    (adj_input : Tensor) (dc : option Direction) (block_output : ref)
    : M (option Direction) :=
  let* c := get_output block_output in
  let c_rep := dict_get replaced_coeffs c c in
  if isinstance c ClsExpression then
    let mesh := ufl_domain_cargo self_form in
    let V := ad_function_space c mesh in
    let dc := TestFunction V in
    let dform := derivative form' c_rep dc in
    let output := backend_assemble dform in
    let* _ := add_adj_output block_output (Paired [(mul adj_input output, V)]) in
    ret (Some dc)
  else
    let dc :=
      if isinstance c ClsFunction then
        Some (TestFunction (function_space c))
      else if isinstance c ClsConstant then
        let mesh := extract_mesh_from_form self_form in
        Some (TestFunction (ad_function_space c mesh))
      else dc in
    match dc with
    | None => raise UnboundLocalError
    | Some d =>
        let dform := derivative form' c_rep d in
        let output := backend_assemble dform in
        let* _ := add_adj_output block_output (Bare (mul adj_input output)) in
        ret dc
    end.

Definition evaluate_adj (self : ref) : M unit :=
  let* out := get_outputs_0 self in
  let* adj_input := get_adj_output out in
  match adj_input with
  | None => ret tt
  | Some adj_input =>
      let* deps := get_dependencies self in
      let* replaced_coeffs := replaced_coeffs_of deps in
      let* self_form := get_form self in
      let form' := replace self_form replaced_coeffs in
      let* _ := for_each (adj_body self_form form' replaced_coeffs adj_input) None deps in
      ret tt
  end.

(** One iteration of the loop of [evaluate_tlm]. *)
Definition tlm_body (self : ref) (form' : Form)
    (replaced_coeffs : list (Coeff * Coeff)) (_ : unit) (block_output : ref)
    : M unit :=
  let* c := get_output block_output in
  let c_rep := dict_get replaced_coeffs c c in
  let* tlm_value := get_tlm_value block_output in
  match tlm_value with
  | None => ret tt
  | Some tlm_value =>
      if isinstance c ClsFunction then
        let dform := derivative form' c_rep tlm_value in
        let output := backend_assemble dform in
        let* out := get_outputs_0 self in
        add_tlm_output out output
      else if isinstance c ClsConstant then
        let dform := derivative form' c_rep tlm_value in
        let output := backend_assemble dform in
        let* out := get_outputs_0 self in
        add_tlm_output out output
      else if isinstance c ClsExpression then
        let dform := derivative form' c_rep tlm_value in
        let output := backend_assemble dform in
        let* out := get_outputs_0 self in
        add_tlm_output out output
      else ret tt
  end.

Definition evaluate_tlm (self : ref) : M unit :=
  let* deps := get_dependencies self in
  let* replaced_coeffs := replaced_coeffs_of deps in
  let* self_form := get_form self in
  let form' := replace self_form replaced_coeffs in
  for_each (tlm_body self form' replaced_coeffs) tt deps.

(** One iteration of the inner loop of [evaluate_hessian]; the
    dispatch is on the class of the outer [c1].  [W] is the local that
    the Expression branch of the outer loop binds. *)
Definition hessian_inner_body (dform : Form)
    (replaced_coeffs : list (Coeff * Coeff)) (adj_input : option Tensor)
    (bo1 : ref) (c1 : Coeff) (W : Space) (_ : unit) (bo2 : ref) : M unit :=
  let* c2 := get_output bo2 in
  let c2_rep := dict_get replaced_coeffs c2 c2 in
  let* tlm_input := get_tlm_value bo2 in
  match tlm_input with
  | None => ret tt
  | Some tlm_input =>
      if isinstance c1 ClsFunction then
        let ddform := derivative dform c2_rep tlm_input in
        let output := backend_assemble ddform in
        let* v := py_mul adj_input output in
        add_hessian_output bo1 (Bare v)
      else if isinstance c1 ClsExpression then
        let ddform := derivative dform c2_rep tlm_input in
        let output := backend_assemble ddform in
        let* v := py_mul adj_input output in
        add_hessian_output bo1 (Paired [(v, W)])
      else if isinstance c1 ClsConstant then
        let ddform := derivative dform c2_rep tlm_input in
        let output := backend_assemble ddform in
        let* v := py_mul adj_input output in
        add_hessian_output bo1 (Bare v)
      else ret tt
  end.

(** The part of the outer loop after [dc] is bound. *)
Definition hessian_outer_rest (form' : Form)
    (replaced_coeffs : list (Coeff * Coeff))
    (hessian_input : Tensor) (adj_input : option Tensor) (deps : list ref)
    (bo1 : ref) (c1 c1_rep : Coeff) (dc : Direction) (W : Space) : M unit :=
  let dform := derivative form' c1_rep dc in
  let* _ := for_each
              (hessian_inner_body dform replaced_coeffs adj_input bo1 c1 W)
              tt deps in
  let output := backend_assemble dform in
  if isinstance c1 ClsExpression then
    add_hessian_output bo1 (Paired [(mul hessian_input output, W)])
  else
    add_hessian_output bo1 (Bare (mul hessian_input output)).

(** One iteration of the outer loop of [evaluate_hessian]. *)
Definition hessian_outer_body (form' : Form)
    (replaced_coeffs : list (Coeff * Coeff))
    (hessian_input : Tensor) (adj_input : option Tensor) (deps : list ref)
    (_ : unit) (bo1 : ref) : M unit :=
  let* c1 := get_output bo1 in
  let c1_rep := dict_get replaced_coeffs c1 c1 in
  let W := ad_function_space c1 (ufl_domain_cargo form') in
  let rest := hessian_outer_rest form' replaced_coeffs hessian_input
                adj_input deps bo1 c1 c1_rep in
  if isinstance c1 ClsFunction then
    rest (TestFunction (function_space c1)) W
  else if isinstance c1 ClsExpression then
    rest (TestFunction W) W
  else if isinstance c1 ClsConstant then
    let mesh := extract_mesh_from_form form' in
    rest (TestFunction (ad_function_space c1 mesh)) W
  else ret tt.

Definition evaluate_hessian (self : ref) : M unit :=
  let* out := get_outputs_0 self in
  let* hessian_input := get_hessian_value out in
  let* out' := get_outputs_0 self in
  let* adj_input := get_adj_output out' in
  match hessian_input with
  | None => ret tt
  | Some hessian_input =>
      let* deps := get_dependencies self in
      let* replaced_coeffs := replaced_coeffs_of deps in
      let* self_form := get_form self in
      let form' := replace self_form replaced_coeffs in
      for_each
        (hessian_outer_body form' replaced_coeffs hessian_input adj_input deps)
        tt deps
  end.

(** The annotated scalar that [create_overloaded_object] returns. *)
Record AdjFloat := mkAdjFloat {
  af_value : Tensor;
  af_block_output : ref               (* get_block_output() *)
}.

Definition empty_slot : OutputSlot := mkOutputSlot None None None None.

(** Modelled from the spec: [create_overloaded_object] of
    [fenics_adjoint/types], which is not among the sources.  It
    "converts a raw scalar into an annotated value exposing an output
    slot": the slot is a new object. *)
Definition create_overloaded_object (x : Tensor) : M AdjFloat :=
  fun s =>
    let r := next_slot s in
    (Ok (mkAdjFloat x r),
     set_next_slot (S r) (set_slots (fun h => <[r := empty_slot]> h) s)).

(** Modelled from the spec: [_ad_create_checkpoint] of the annotated
    scalar, not among the sources; the checkpoint is the "snapshot
    value" of the result. *)
Definition ad_create_checkpoint (x : AdjFloat) : Tensor := af_value x.

Definition recompute (self : ref) : M unit :=
  let* deps := get_dependencies self in
  let* replaced_coeffs := replaced_coeffs_of deps in
  let* self_form := get_form self in
  let form' := replace self_form replaced_coeffs in
  let output := backend_assemble form' in
  let* output := create_overloaded_object output in
  let checkpoint := ad_create_checkpoint output in
  let* out := get_outputs_0 self in
  modify (checkpoint_set out checkpoint).

(** ** Construction and the overloaded [assemble] *)

(** Modelled from the spec: [Block.add_dependency] and
    [Block.add_output] of the tape runtime append to the node's ordered
    lists, and [Tape.add_block] appends the node to the tape. *)
Definition add_dependency (self : ref) (dep : ref) : M unit :=
  modify (set_blocks (fun h =>
    <[self := mkBlock (form (h self)) (dependencies (h self) ++ [dep])
                      (outputs (h self))]> h)).
Definition add_output (self : ref) (o : ref) : M unit :=
  modify (set_blocks (fun h =>
    <[self := mkBlock (form (h self)) (dependencies (h self))
                      (outputs (h self) ++ [o])]> h)).
Definition add_block (block : ref) : M unit :=
  modify (fun s => set_tape (tape s ++ [block]) s).

Definition get_block_output (c : Coeff) : M ref :=
  gets (fun s => block_output_of s c).

(** [AssembleBlock.__init__]: a new block object, then one
    [add_dependency] per coefficient of the form. *)
Definition AssembleBlock_init (form0 : Form) : M ref :=
  let* self := gets next_block in
  let* _ := modify (fun s =>
              set_next_block (S self)
                (set_blocks (fun h => <[self := mkBlock form0 [] []]> h) s)) in
  let* _ := for_each (fun (_ : unit) c =>
                        let* dep := get_block_output c in
                        add_dependency self dep)
                     tt (coefficients form0) in
  ret self.

(** What [assemble] returns: the value, the [form] attribute if one was
    attached, and the block output if the value is an annotated scalar. *)
Record Assembled := mkAssembled {
  av_value : Tensor;
  av_form : option Form;
  av_block_output : option ref
}.

(** [assemble(form, **kwargs)]; [annotate] is what
    [annotate_tape(kwargs)] returned.  The backend call runs under
    [stop_annotating()]; the backend being pure here, the suspension has
    nothing to act on. *)
Definition assemble (annotate : bool) (form0 : Form) : M Assembled :=
  let output := backend_assemble form0 in
  if is_float output then
    let* output := create_overloaded_object output in
    let* _ :=
      (if annotate then
         let* block := AssembleBlock_init form0 in
         let* _ := add_block block in
         add_output block (af_block_output output)
       else ret tt) in
    ret (mkAssembled (af_value output) None (Some (af_block_output output)))
  else
    ret (mkAssembled output (Some form0) None).

(** The four operations the tape invokes on a node. *)
Inductive operation := OpRecompute | OpAdj | OpTlm | OpHessian.

Definition invoke (op : operation) (self : ref) : M unit :=
  match op with
  | OpRecompute => recompute self
  | OpAdj => evaluate_adj self
  | OpTlm => evaluate_tlm self
  | OpHessian => evaluate_hessian self
  end.

(** A sequence of invocations; an exception ends one invocation, not
    the sequence. *)
Definition invoke_all (ops : list operation) (self : ref) (s : State) : State :=
  foldl (fun s' op => (invoke op self s').2) s ops.

(** ** The operations as the specification words them

    Pure functions on the store, written per dependency kind; the
    theorems below compare them with the operations above. *)

(** The substitution: each dependency's coefficient mapped to its
    checkpointed value, read from the store [s]. *)
Definition substitution (s : State) (deps : list ref) : list (Coeff * Coeff) :=
  foldl (fun d r => dict_set d (bo_output (edges s r))
                             (bo_saved_output (edges s r)))
        [] deps.

(** The substituted form of the node [self]. *)
Definition substituted_form (s : State) (self : ref) : Form :=
  replace (form (blocks s self))
          (substitution s (dependencies (blocks s self))).

Definition recognized (c : Coeff) : bool :=
  match class_of c with
  | ClsOther => false
  | _ => true
  end.

(** The space of the test direction of a dependency, per kind; the
    meshes are taken from [Fm]. *)
Definition test_space (Fm : Form) (c : Coeff) : option Space :=
  match class_of c with
  | ClsFunction => Some (function_space c)
  | ClsConstant => Some (ad_function_space c (extract_mesh_from_form Fm))
  | ClsExpression => Some (ad_function_space c (ufl_domain_cargo Fm))
  | ClsOther => None
  end.

(** A bare value for a field or a constant, a one-element list of
    (value, space) for an expression. *)
Definition wrap (c : Coeff) (V : Space) (v : Tensor) : Contribution :=
  match class_of c with
  | ClsExpression => Paired [(v, V)]
  | _ => Bare v
  end.

(** seed x assembled derivative of the substituted form [F'] with
    respect to the value substituted for [c], against the test
    direction of [c]. *)
Definition adj_contribution (Fm F' : Form) (sub : list (Coeff * Coeff))
    (seed : Tensor) (c : Coeff) : option Contribution :=
  match test_space Fm c with
  | Some V =>
      Some (wrap c V
              (mul seed
                 (backend_assemble
                    (derivative F' (dict_get sub c c) (TestFunction V)))))
  | None => None
  end.

Definition adj_spec (s : State) (self : ref) (seed : Tensor) : State :=
  let F := form (blocks s self) in
  let deps := dependencies (blocks s self) in
  foldl (fun s' r =>
           match adj_contribution F (substituted_form s self)
                   (substitution s deps) seed (bo_output (edges s r)) with
           | Some v => adj_added r v s'
           | None => s'
           end)
        s deps.

Definition tlm_spec (s : State) (self out : ref) : State :=
  let deps := dependencies (blocks s self) in
  let sub := substitution s deps in
  foldl (fun s' r =>
           let c := bo_output (edges s r) in
           match bo_tlm_value (edges s r) with
           | Some t =>
               if recognized c then
                 tlm_added out
                   (backend_assemble
                      (derivative (substituted_form s self)
                                  (dict_get sub c c) t))
                   s'
               else s'
           | None => s'
           end)
        s deps.

(** The contributions to the Hessian accumulator of the outer
    dependency [r1]: one per inner dependency with a tangent value,
    then the unmixed first derivative. *)
Definition hessian_spec_outer (s : State) (self : ref)
    (adj_seed hessian_seed : Tensor) (s' : State) (r1 : ref) : State :=
  let deps := dependencies (blocks s self) in
  let sub := substitution s deps in
  let F' := substituted_form s self in
  let c1 := bo_output (edges s r1) in
  match test_space F' c1 with
  | None => s'
  | Some V =>
      let dform := derivative F' (dict_get sub c1 c1) (TestFunction V) in
      let s'' :=
        foldl (fun s2 r2 =>
                 let c2 := bo_output (edges s r2) in
                 match bo_tlm_value (edges s r2) with
                 | Some t =>
                     hessian_added r1
                       (wrap c1 V
                          (mul adj_seed
                             (backend_assemble
                                (derivative dform (dict_get sub c2 c2) t))))
                       s2
                 | None => s2
                 end)
              s' deps in
      hessian_added r1
        (wrap c1 V (mul hessian_seed (backend_assemble dform))) s''
  end.

Definition hessian_spec (s : State) (self : ref)
    (adj_seed hessian_seed : Tensor) : State :=
  foldl (hessian_spec_outer s self adj_seed hessian_seed) s
        (dependencies (blocks s self)).

(** The dependency list [__init__] builds: one edge per coefficient of
    the form, in the order of [coefficients]. *)
Definition init_dependencies (s : State) (F : Form) : list ref :=
  map (block_output_of s) (coefficients F).

(** What an accumulator holds after the contributions [vs] have been
    merged into it, one after the other. *)
Definition merged (old : option Contribution) (vs : list Contribution)
    : option Contribution :=
  foldl (fun acc v => Some (accumulate acc v)) old vs.

Definition merged_tlm (old : option Tensor) (vs : list Tensor) : option Tensor :=
  foldl (fun acc v => Some (accumulate_tlm acc v)) old vs.

(** The values tangent propagation adds to the output, in the order of
    the dependencies: for each dependency of a recognised class with a
    tangent value [t], the assembled derivative of the substituted form
    with respect to the dependency's substituted value in the direction
    [t]. *)
Definition tlm_contributions (s : State) (self : ref) : list Tensor :=
  let deps := dependencies (blocks s self) in
  let sub := substitution s deps in
  flat_map (fun r =>
              let c := bo_output (edges s r) in
              match bo_tlm_value (edges s r) with
              | Some t =>
                  if recognized c then
                    [backend_assemble
                       (derivative (substituted_form s self)
                                   (dict_get sub c c) t)]
                  else []
              | None => []
              end)
           deps.

(** The contributions Hessian propagation makes to the accumulator of the
    outer dependency [r1], in order: adjoint seed x assembled second
    derivative for each inner dependency with a tangent value, then
    Hessian seed x assembled first derivative; none if [r1] is of no
    recognised class. *)
Definition hessian_contributions (s : State) (self : ref)
    (adj_seed hessian_seed : Tensor) (r1 : ref) : list Contribution :=
  let deps := dependencies (blocks s self) in
  let sub := substitution s deps in
  let F' := substituted_form s self in
  let c1 := bo_output (edges s r1) in
  match test_space F' c1 with
  | None => []
  | Some V =>
      let dform := derivative F' (dict_get sub c1 c1) (TestFunction V) in
      flat_map (fun r2 =>
                  let c2 := bo_output (edges s r2) in
                  match bo_tlm_value (edges s r2) with
                  | Some t =>
                      [wrap c1 V
                         (mul adj_seed
                            (backend_assemble
                               (derivative dform (dict_get sub c2 c2) t)))]
                  | None => []
                  end)
               deps
      ++ [wrap c1 V (mul hessian_seed (backend_assemble dform))]
  end.

(** Two stores with the same inputs of the Hessian loops: the
    coefficient and the tangent value of every edge. *)
Definition same_inputs (s s' : State) : Prop :=
  forall r, bo_output (edges s' r) = bo_output (edges s r)
            /\ bo_tlm_value (edges s' r) = bo_tlm_value (edges s r).

(** A computation that leaves every block object as it is, whether it
    returns or raises. *)
Definition keeps_blocks {X} (m : M X) : Prop :=
  forall s, blocks (m s).2 = blocks s.

End Assembly.

(** ** What an operation leaves alone *)

Section Frames.
Context `{B : Backend}.

(** A property of the store that a computation keeps, whether it returns
    or raises. *)
Definition preserves {X} (P : State -> Prop) (m : M X) : Prop :=
  forall s, P s -> P (m s).2.

End Frames.

(** ** [AssembleBlock.__str__] *)

(** [str(form)] of the form language. *)
Class FormPrinter `{Backend} := {
  Text : Type;
  form_str : Form -> Text
}.

Section Str.
Context `{B : Backend} `{P : !FormPrinter}.

(** [str(self.form)] *)
Definition AssembleBlock_str (self : ref) : M Text :=
  bind (get_form self) (fun f => ret (form_str f)).

End Str.

(** ** [assemble_system] *)

Module System.
Import stdpp.strings stdpp.gmap.

(** The positional and keyword arguments are passed on as they come: any
    Python object.  [backend.assemble_system] returns the pair (A, b). *)
Class SystemBackend := {
  PyObj : Type;
  Matrix : Type;
  Vector : Type;
  backend_assemble_system : list PyObj -> gmap string PyObj -> Matrix * Vector
}.

(** The value of the [bcs] attribute: an argument, or the literal [[]]. *)
Inductive Bcs `{SystemBackend} :=
| BcsOf (v : PyObj)
| BcsEmpty.

(** A backend tensor with the attributes [form] and [bcs] set on it. *)
Record Attributed `{SystemBackend} (T : Type) := mkAttributed {
  at_tensor : T;
  at_form : PyObj;
  at_bcs : Bcs
}.
Arguments mkAttributed {_ T} _ _ _.
Arguments at_tensor {_ T} _.
Arguments at_form {_ T} _.
Arguments at_bcs {_ T} _.

Section AssembleSystem.
Context `{B : Backend} `{SB : SystemBackend}.

#[local] Notation "'let*' x ':=' m 'in' k" := (bind m (fun x => k))
  (at level 10, x name, m at level 100, k at level 200).

(** [args[i]] on the tuple of positional arguments. *)
Definition getitem (args : list PyObj) (i : nat) : M PyObj :=
  match args !! i with
  | Some v => ret v
  | None => raise IndexError
  end.

Definition assemble_system (args : list PyObj) (kwargs : gmap string PyObj)
    : M (Attributed Matrix * Attributed Vector) :=
  let* A_form := getitem args 0 in
  let* b_form := getitem args 1 in
  let Ab := backend_assemble_system args kwargs in
  let* bcs :=
    match kwargs !! "bcs"%string with
    | Some v => ret (BcsOf v)
    | None =>
        if bool_decide (2 < length args) then
          let* v := getitem args 2 in ret (BcsOf v)
        else ret BcsEmpty
    end in
  ret (mkAttributed Ab.1 A_form bcs, mkAttributed Ab.2 b_form bcs).

End AssembleSystem.

(** A system backend over numbers: the matrix and the vector remember the
    arguments they were assembled from. *)
#[global] Instance nat_system : SystemBackend := {|
  PyObj := nat;
  Matrix := list nat * list (string * nat);
  Vector := list nat * list (string * nat);
  backend_assemble_system := fun args kwargs =>
    ((args, map_to_list kwargs), (args, map_to_list kwargs))
|}.

End System.

(** ** The backend selection of [fenics_adjoint/__init__.py]

    The statements of the package initialisation up to the test of line
    14: the registration of a backend in [sys.modules] (lines 8 to 12)
    and the test that guards the import of [genericmatrix].  The two
    imports from the package's own modules (lines 15 and 17) run code
    that is not among the sources; they are not modelled, and nothing
    below speaks of [sys.modules] after them. *)

Module Package.
Import stdpp.strings stdpp.gmap.

Section Selection.
(** Module objects and their [__name__]. *)
Context {PyModule : Type} (mod_name : PyModule -> string).
(** What the import system finds for a name that [sys.modules] does not
    hold yet; [None] when there is no such module. *)
Context (find_module : string -> option PyModule).

(** [import name]: the cached module, or the one found, which is then
    cached; [None] stands for [ImportError]. *)
Definition import_module (name : string) (sys_modules : gmap string PyModule)
    : option (PyModule * gmap string PyModule) :=
  match sys_modules !! name with
  | Some m => Some (m, sys_modules)
  | None =>
      match find_module name with
      | Some m => Some (m, <[name := m]> sys_modules)
      | None => None
      end
  end.

(** The state when line 12 has run: [sys.modules] as lines 9 to 11 leave
    it, and the module bound to [backend]. *)
Record Selected := mkSelected {
  sys_modules_after : gmap string PyModule;
  backend : PyModule
}.

(** Lines 8 to 12. *)
Definition select_backend (sys_modules : gmap string PyModule)
    : option Selected :=
  sys_modules' ←
    (if bool_decide (sys_modules !! "backend"%string = None) then
       '(fenics, sys_modules1) ← import_module "fenics" sys_modules;
       Some (<["backend"%string := fenics]> sys_modules1)
     else Some sys_modules);
  backend ← sys_modules' !! "backend"%string;
  Some (mkSelected sys_modules' backend).


End Selection.

End Package.

(** ** A symbolic backend

    Forms, directions, spaces, meshes and assembled values as free terms:
    no two different library calls give the same result, so whatever the
    code computes can be read off the term. *)
Module Sym.

Inductive coeff := Co (cls : PyClass) (id : nat).

#[global] Instance coeff_eq_dec : EqDecision coeff.
Proof. solve_decision. Defined.

Inductive form :=
| Base (id : nat) (rank : nat) (cs : list coeff)
| Replace (f : form) (d : list (coeff * coeff))
| Derivative (f : form) (c : coeff) (d : direction)
with direction :=
| Test (V : space)
| Tangent (id : nat)
with space :=
| SpaceOf (c : coeff)
| AdSpace (c : coeff) (m : mesh)
with mesh :=
| Cargo (f : form)
| Extracted (f : form).

Inductive tensor :=
| Lit (n : nat)
| Assembled_ (f : form)
| Times (a b : tensor)
| Plus (a b : tensor).

(** Number of free arguments: 0 for a functional. *)
Fixpoint rank (f : form) : nat :=
  match f with
  | Base _ n _ => n
  | Replace f _ => rank f
  | Derivative f _ (Test _) => S (rank f)
  | Derivative f _ (Tangent _) => rank f
  end.

Fixpoint coefficients_of (f : form) : list coeff :=
  match f with
  | Base _ _ cs => cs
  | Replace f d => map (fun c => dict_get d c c) (coefficients_of f)
  | Derivative f _ _ => coefficients_of f
  end.

Definition tensor_is_float (t : tensor) : bool :=
  match t with
  | Assembled_ f => Nat.eqb (rank f) 0
  | _ => true
  end.

#[global] Instance backend : Backend := {|
  Form := form;
  Coeff := coeff;
  Direction := direction;
  Space := space;
  Mesh := mesh;
  Tensor := tensor;
  Coeff_eq_dec := coeff_eq_dec;
  class_of := fun c => match c with Co k _ => k end;
  coefficients := coefficients_of;
  replace := Replace;
  derivative := Derivative;
  backend_assemble := Assembled_;
  TestFunction := Test;
  function_space := SpaceOf;
  ad_function_space := AdSpace;
  ufl_domain_cargo := Cargo;
  extract_mesh_from_form := Extracted;
  is_float := tensor_is_float;
  mul := Times
|}.

#[global] Instance accumulators : Accumulators := {|
  accumulate := fun old v =>
    match old, v with
    | None, _ => v
    | Some (Bare x), Bare y => Bare (Plus x y)
    | Some (Paired l), Paired l' => Paired (l ++ l')
    | Some _, _ => v
    end;
  accumulate_tlm := fun old v =>
    match old with
    | None => v
    | Some x => Plus x v
    end
|}.

(** A store with one block (reference 0) over the given coefficients:
    the block output of the [i]-th is reference [i], its saved output
    is a copy with identifier [100 + id]. *)
Definition saved (c : coeff) : coeff :=
  match c with Co k i => Co k (100 + i) end.

Definition edge_of (tlm : nat -> option direction) (cs : list coeff) (r : ref)
    : BlockOutput :=
  let c := nth r cs (Co ClsOther 0) in
  mkBlockOutput c (saved c) None (tlm r) None.

Definition store (F : form) (cs : list coeff) (tlm : nat -> option direction)
    (adj hess : option tensor) : State :=
  mkState (fun _ => mkBlock F (seq 0 (length cs)) [0])
          1
          (edge_of tlm cs)
          (fun _ => mkOutputSlot None adj None hess)
          1
          [0]
          (fun c => match c with Co _ i => i end).

Definition u : coeff := Co ClsFunction 0.
Definition k : coeff := Co ClsConstant 1.
Definition e : coeff := Co ClsExpression 2.
Definition x : coeff := Co ClsOther 0.
Definition y : coeff := Co ClsOther 1.

(** A functional of a field, a constant and an expression. *)
Definition J : form := Base 7 0 [u; k; e].

Definition no_tangent : nat -> option direction := fun _ => None.

(** Adjoint seed 3, nothing else. *)
Definition st_adj : State := store J [u; k; e] no_tangent (Some (Lit 3)) None.
(** Both seeds, a tangent value on the constant only. *)
Definition st_hessian : State :=
  store J [u; k; e]
        (fun r => if Nat.eqb r 1 then Some (Tangent 1) else None)
        (Some (Lit 3)) (Some (Lit 5)).
(** A tangent value on every edge, no seed. *)
Definition st_tlm : State :=
  store J [u; k; e] (fun r => Some (Tangent r)) None None.
(** No seed and no tangent value at all. *)
Definition st_idle : State := store J [u; k; e] no_tangent None None.
(** A form whose only coefficient is of no recognised class. *)
Definition st_other : State :=
  store (Base 8 0 [x]) [x] no_tangent (Some (Lit 3)) None.
(** A field followed by a coefficient of no recognised class. *)
Definition st_stale : State :=
  store (Base 9 0 [u; y]) [u; y] no_tangent (Some (Lit 3)) None.
(** A Hessian seed, but neither an adjoint seed nor a tangent value. *)
Definition st_curvature : State :=
  store (Base 10 0 [u]) [u] no_tangent None (Some (Lit 5)).
(** A Hessian seed and a tangent value, but no adjoint seed. *)
Definition st_no_adj : State :=
  store (Base 10 0 [u]) [u] (fun r => Some (Tangent r)) None (Some (Lit 5)).

End Sym.

(** More stores over the symbolic backend. *)
Module SymExtra.
Import Sym.

(** The store of [st_tlm], its node not yet linked to an output. *)
Definition st_no_output : State :=
  mkState (fun _ => mkBlock J [0; 1; 2] [])
          1 (edges st_tlm) (slots st_tlm) 1 [0] (block_output_of st_tlm).

(** A form prints as itself. *)
#[global] Instance printer : FormPrinter := {|
  Text := form;
  form_str := fun f => f
|}.

(** Modules named by strings; every name can be found. *)
Definition find_any (name : String.string) : option String.string := Some name.

End SymExtra.

(** ** Theorems *)

Section Theory.
Context `{B : Backend} `{A : !Accumulators}.

Ltac run := unfold bind, ret, raise, gets, modify, get_output,
  get_saved_output, get_tlm_value, get_dependencies, get_form,
  get_adj_output, get_hessian_value, add_adj_output, add_hessian_output,
  add_tlm_output, get_block_output, add_dependency, add_output, add_block;
  simpl.

Lemma isinstance_true c k : class_of c = k -> isinstance c k = true.
Proof. intros H. unfold isinstance. by apply bool_decide_eq_true. Qed.

Lemma isinstance_false c k : class_of c <> k -> isinstance c k = false.
Proof. intros H. unfold isinstance. by apply bool_decide_eq_false. Qed.

(** Reading the substitution leaves the store alone. *)
Lemma replaced_coeffs_of_from deps : forall acc s,
  for_each (fun replaced_coeffs block_output =>
              bind (get_output block_output) (fun coeff =>
              bind (get_saved_output block_output) (fun saved =>
              ret (dict_set replaced_coeffs coeff saved))))
           acc deps s
  = (Ok (foldl (fun d r => dict_set d (bo_output (edges s r))
                                    (bo_saved_output (edges s r)))
               acc deps), s).
Proof.
  induction deps as [|r deps IH]; intros acc s; [reflexivity|].
  simpl. run. apply IH.
Qed.

Lemma replaced_coeffs_of_run deps s :
  replaced_coeffs_of deps s = (Ok (substitution s deps), s).
Proof. apply replaced_coeffs_of_from. Qed.

(** The accumulators of an edge change, nothing else of the store. *)
Lemma adj_added_output r v s r' :
  bo_output (edges (adj_added r v s) r') = bo_output (edges s r').
Proof.
  unfold adj_added; simpl. destruct (decide (r = r')) as [->|Hne].
  - by rewrite fn_lookup_insert.
  - by rewrite fn_lookup_insert_ne.
Qed.

Lemma hessian_added_output r v s r' :
  bo_output (edges (hessian_added r v s) r') = bo_output (edges s r').
Proof.
  unfold hessian_added; simpl. destruct (decide (r = r')) as [->|Hne].
  - by rewrite fn_lookup_insert.
  - by rewrite fn_lookup_insert_ne.
Qed.

Lemma hessian_added_tlm r v s r' :
  bo_tlm_value (edges (hessian_added r v s) r') = bo_tlm_value (edges s r').
Proof.
  unfold hessian_added; simpl. destruct (decide (r = r')) as [->|Hne].
  - by rewrite fn_lookup_insert.
  - by rewrite fn_lookup_insert_ne.
Qed.

Lemma adj_added_adj_eq r v s :
  bo_adj_value (edges (adj_added r v s) r)
  = Some (accumulate (bo_adj_value (edges s r)) v).
Proof. unfold adj_added; simpl. by rewrite fn_lookup_insert. Qed.

Lemma adj_added_ne r v s r' :
  r <> r' -> edges (adj_added r v s) r' = edges s r'.
Proof. intros. unfold adj_added; simpl. by rewrite fn_lookup_insert_ne. Qed.

Lemma hessian_added_hessian_eq r v s :
  bo_hessian_value (edges (hessian_added r v s) r)
  = Some (accumulate (bo_hessian_value (edges s r)) v).
Proof. unfold hessian_added; simpl. by rewrite fn_lookup_insert. Qed.

Lemma hessian_added_ne r v s r' :
  r <> r' -> edges (hessian_added r v s) r' = edges s r'.
Proof. intros. unfold hessian_added; simpl. by rewrite fn_lookup_insert_ne. Qed.

(** One iteration of the adjoint loop on a dependency of a recognised
    kind: the contribution of the specification, whatever [dc] held. *)
Lemma adj_body_recognized Fm F' sub seed dc r s v :
  adj_contribution Fm F' sub seed (bo_output (edges s r)) = Some v ->
  exists dc', adj_body Fm F' sub seed dc r s = (Ok dc', adj_added r v s).
Proof.
  unfold adj_contribution, test_space, wrap, adj_body. run.
  destruct (class_of (bo_output (edges s r))) eqn:Hc; intros Hv;
    simplify_eq.
  - rewrite (isinstance_false _ ClsExpression), (isinstance_true _ ClsFunction)
      by congruence.
    eauto.
  - rewrite (isinstance_false _ ClsExpression), (isinstance_false _ ClsFunction),
      (isinstance_true _ ClsConstant) by congruence.
    eauto.
  - rewrite (isinstance_true _ ClsExpression) by congruence. eauto.
Qed.

Lemma adj_contribution_recognized Fm F' sub seed c :
  recognized c = true -> is_Some (adj_contribution Fm F' sub seed c).
Proof.
  unfold recognized, adj_contribution, test_space.
  destruct (class_of c); intros; by eauto.
Qed.

Lemma adj_loop s Fm F' sub seed deps : forall s' dc,
  (forall r, bo_output (edges s' r) = bo_output (edges s r)) ->
  Forall (fun r => recognized (bo_output (edges s r)) = true) deps ->
  exists dc',
    for_each (adj_body Fm F' sub seed) dc deps s'
    = (Ok dc',
       foldl (fun s'' r =>
                match adj_contribution Fm F' sub seed (bo_output (edges s r)) with
                | Some v => adj_added r v s''
                | None => s''
                end) s' deps).
Proof.
  induction deps as [|r deps IH]; intros s' dc Hout Hrec.
  - exists dc. reflexivity.
  - inversion_clear Hrec as [|? ? Hr Hrec'].
    destruct (adj_contribution_recognized Fm F' sub seed _ Hr) as [v Hv].
    simpl. rewrite Hv.
    destruct (adj_body_recognized Fm F' sub seed dc r s' v) as [dc1 E].
    { by rewrite Hout. }
    unfold bind at 1. rewrite E.
    apply IH; [|done].
    intros r'. by rewrite adj_added_output.
Qed.

(** Where the edges are pairwise distinct objects, each accumulator
    has merged exactly its own contribution. *)
Lemma adj_fold_lookup (f : ref -> option Contribution) deps : forall s' r v,
  NoDup deps -> r ∈ deps -> f r = Some v ->
  bo_adj_value
    (edges (foldl (fun s'' r => match f r with
                                | Some v => adj_added r v s''
                                | None => s''
                                end) s' deps) r)
  = Some (accumulate (bo_adj_value (edges s' r)) v).
Proof.
  assert (Hframe : forall deps s' r, r ∉ deps ->
    edges (foldl (fun s'' r => match f r with
                               | Some v => adj_added r v s''
                               | None => s''
                               end) s' deps) r = edges s' r).
  { clear. induction deps as [|r0 deps IH]; intros s' r Hr; [done|].
    apply not_elem_of_cons in Hr as [Hne Hr]. simpl. rewrite IH by done.
    destruct (f r0); [|done]. by apply adj_added_ne. }
  induction deps as [|r0 deps IH]; intros s' r v Hnd Hin Hf.
  - by apply elem_of_nil in Hin.
  - pose proof (NoDup_cons_1_1 _ _ Hnd) as Hnotin.
    apply NoDup_cons_1_2 in Hnd.
    apply elem_of_cons in Hin as [->|Hin].
    + simpl. rewrite Hf, Hframe by done. apply adj_added_adj_eq.
    + simpl. rewrite (IH _ r v) by done.
      assert (r0 <> r) by (intros ->; done).
      destruct (f r0); [|done]. by rewrite adj_added_ne.
Qed.

(** C1.  With an adjoint seed on the output, adjoint propagation builds
    the substituted form and merges, for each dependency in turn,
    exactly seed x assembled derivative of the substituted form with
    respect to the dependency's substituted value, in a test direction
    over the field's own function space (field), over the constant's
    sensitivity space on the mesh of the node's form (constant), or over
    the expression's function space, in which case the contribution is
    the pair (value, space) (expression).  Where the edges are distinct
    objects each accumulator has merged exactly that one contribution. *)
Theorem evaluate_adj_accumulates s self out rest seed :
  outputs (blocks s self) = out :: rest ->
  os_adj_value (slots s out) = Some seed ->
  Forall (fun r => recognized (bo_output (edges s r)) = true)
         (dependencies (blocks s self)) ->
  evaluate_adj self s = (Ok tt, adj_spec s self seed)
  /\ (NoDup (dependencies (blocks s self)) ->
      forall r, r ∈ dependencies (blocks s self) ->
      exists v,
        adj_contribution (form (blocks s self)) (substituted_form s self)
          (substitution s (dependencies (blocks s self))) seed
          (bo_output (edges s r)) = Some v
        /\ bo_adj_value (edges (adj_spec s self seed) r)
           = Some (accumulate (bo_adj_value (edges s r)) v)).
Proof.
  intros Hout Hseed Hrec. split.
  - unfold evaluate_adj, get_outputs_0. unfold bind at 1. rewrite Hout.
    run. rewrite Hseed. run. rewrite replaced_coeffs_of_run.
    destruct (adj_loop s (form (blocks s self)) (substituted_form s self)
                (substitution s (dependencies (blocks s self))) seed
                (dependencies (blocks s self)) s None) as [dc' E];
      [done|done|].
    unfold substituted_form in E. rewrite E. reflexivity.
  - intros Hnd r Hr.
    rewrite Forall_forall in Hrec.
    destruct (adj_contribution_recognized (form (blocks s self))
                (substituted_form s self)
                (substitution s (dependencies (blocks s self))) seed
                _ (Hrec r (proj1 (list_elem_of_In _ _) Hr))) as [v Hv].
    exists v. split; [done|].
    unfold adj_spec.
    by apply (adj_fold_lookup
                (fun r => adj_contribution (form (blocks s self))
                            (substituted_form s self)
                            (substitution s (dependencies (blocks s self)))
                            seed (bo_output (edges s r)))).
Qed.

(** One iteration of the tangent loop: the three recognised kinds go
    through the same computation. *)
Lemma tlm_body_run self out rest F' sub r s :
  outputs (blocks s self) = out :: rest ->
  tlm_body self F' sub tt r s
  = (Ok tt,
     let c := bo_output (edges s r) in
     match bo_tlm_value (edges s r) with
     | Some t =>
         if recognized c then
           tlm_added out
             (backend_assemble (derivative F' (dict_get sub c c) t)) s
         else s
     | None => s
     end).
Proof.
  intros Hout. unfold tlm_body, recognized, get_outputs_0. run.
  destruct (bo_tlm_value (edges s r)) as [t|]; [|done].
  destruct (class_of (bo_output (edges s r))) eqn:Hc.
  - rewrite (isinstance_true _ ClsFunction) by done. by rewrite Hout.
  - rewrite (isinstance_false _ ClsFunction), (isinstance_true _ ClsConstant)
      by congruence.
    by rewrite Hout.
  - rewrite (isinstance_false _ ClsFunction), (isinstance_false _ ClsConstant),
      (isinstance_true _ ClsExpression) by congruence.
    by rewrite Hout.
  - by rewrite !isinstance_false by congruence.
Qed.

Lemma tlm_loop s self out rest F' sub deps : forall s',
  outputs (blocks s self) = out :: rest ->
  edges s' = edges s -> blocks s' = blocks s ->
  for_each (tlm_body self F' sub) tt deps s'
  = (Ok tt,
     foldl (fun s'' r =>
              let c := bo_output (edges s r) in
              match bo_tlm_value (edges s r) with
              | Some t =>
                  if recognized c then
                    tlm_added out
                      (backend_assemble (derivative F' (dict_get sub c c) t))
                      s''
                  else s''
              | None => s''
              end) s' deps).
Proof.
  intros s' Hout. revert s'.
  induction deps as [|r deps IH]; intros s' He Hb; [done|].
  simpl. unfold bind at 1.
  rewrite (tlm_body_run self out rest) by (by rewrite Hb).
  rewrite He.
  destruct (bo_tlm_value (edges s r)) as [t|]; simpl; [|by apply IH].
  destruct (recognized (bo_output (edges s r))); by apply IH.
Qed.

Lemma merged_tlm_app old xs ys :
  merged_tlm old (xs ++ ys) = merged_tlm (merged_tlm old xs) ys.
Proof. unfold merged_tlm. apply foldl_app. Qed.

Lemma tlm_spec_value s self out :
  os_tlm_value (slots (tlm_spec s self out) out)
  = merged_tlm (os_tlm_value (slots s out)) (tlm_contributions s self).
Proof.
  unfold tlm_spec, tlm_contributions.
  set (F' := substituted_form s self).
  set (sub := substitution s (dependencies (blocks s self))).
  assert (H : forall l s',
    os_tlm_value
      (slots
         (foldl (fun s'' r =>
                   let c := bo_output (edges s r) in
                   match bo_tlm_value (edges s r) with
                   | Some t =>
                       if recognized c then
                         tlm_added out
                           (backend_assemble
                              (derivative F' (dict_get sub c c) t)) s''
                       else s''
                   | None => s''
                   end) s' l) out)
    = merged_tlm (os_tlm_value (slots s' out))
        (flat_map (fun r =>
                     let c := bo_output (edges s r) in
                     match bo_tlm_value (edges s r) with
                     | Some t =>
                         if recognized c then
                           [backend_assemble
                              (derivative F' (dict_get sub c c) t)]
                         else []
                     | None => []
                     end) l)).
  { induction l as [|r l IH]; intros s'; [done|].
    simpl. rewrite IH, merged_tlm_app. f_equal.
    destruct (bo_tlm_value (edges s r)) as [t|]; [|done].
    destruct (recognized (bo_output (edges s r))); [|done].
    unfold tlm_added; simpl. by rewrite fn_lookup_insert. }
  apply H.
Qed.

(** C7.  Tangent propagation differentiates the substituted form with
    respect to each dependency that carries a tangent value, in the
    direction of that value itself, assembles, and adds the result to
    the tangent accumulator of the node's output; field, constant and
    expression dependencies are treated alike, and a dependency without
    a tangent value contributes nothing.  The accumulator of the output
    ends up with exactly these assembled derivatives merged into what it
    held, in the order of the dependencies. *)
Theorem evaluate_tlm_uniform s self out rest :
  outputs (blocks s self) = out :: rest ->
  evaluate_tlm self s = (Ok tt, tlm_spec s self out)
  /\ os_tlm_value (slots (evaluate_tlm self s).2 out)
     = merged_tlm (os_tlm_value (slots s out)) (tlm_contributions s self).
Proof.
  intros Hout.
  assert (E : evaluate_tlm self s = (Ok tt, tlm_spec s self out)).
  { unfold evaluate_tlm. run.
    rewrite replaced_coeffs_of_run.
    by rewrite (tlm_loop s self out rest). }
  split; [exact E|]. rewrite E. apply tlm_spec_value.
Qed.

Lemma tlm_loop_none self F' sub deps s :
  (forall r, r ∈ deps -> bo_tlm_value (edges s r) = None) ->
  for_each (tlm_body self F' sub) tt deps s = (Ok tt, s).
Proof.
  induction deps as [|r deps IH]; intros Hnone; [done|].
  simpl. unfold bind at 1, tlm_body at 1. run.
  rewrite (Hnone r) by (by left).
  apply IH. intros r' Hr'. apply Hnone. by right.
Qed.

(** C4, as amended.  Adjoint propagation without an adjoint seed,
    tangent propagation when no dependency carries a tangent value, and
    Hessian propagation without a Hessian seed leave the whole store as
    it is and raise nothing. *)
Theorem missing_seed_noop s self out rest :
  outputs (blocks s self) = out :: rest ->
  (os_adj_value (slots s out) = None -> evaluate_adj self s = (Ok tt, s))
  /\ ((forall r, r ∈ dependencies (blocks s self) ->
                bo_tlm_value (edges s r) = None) ->
      evaluate_tlm self s = (Ok tt, s))
  /\ (os_hessian_value (slots s out) = None ->
      evaluate_hessian self s = (Ok tt, s)).
Proof.
  intros Hout. split; [|split].
  - intros Hnone. unfold evaluate_adj, get_outputs_0. unfold bind at 1.
    rewrite Hout. run. by rewrite Hnone.
  - intros Hnone. unfold evaluate_tlm. run. rewrite replaced_coeffs_of_run.
    by apply tlm_loop_none.
  - intros Hnone. unfold evaluate_hessian, get_outputs_0. unfold bind at 1.
    rewrite Hout. run. rewrite Hout. by rewrite Hnone.
Qed.

Lemma same_inputs_refl s : same_inputs s s.
Proof. by intros r. Qed.

Lemma same_inputs_hessian_added s s' r v :
  same_inputs s s' -> same_inputs s (hessian_added r v s').
Proof.
  intros H r'. rewrite hessian_added_output, hessian_added_tlm. apply H.
Qed.

Lemma same_inputs_fold s (f : State -> ref -> State) deps :
  (forall s' r, same_inputs s s' -> same_inputs s (f s' r)) ->
  forall s', same_inputs s s' -> same_inputs s (foldl f s' deps).
Proof.
  intros Hf. induction deps as [|r deps IH]; intros s' H; [done|].
  simpl. apply IH. by apply Hf.
Qed.

(** The wrapper the code picks by [isinstance] is [wrap]. *)
Lemma hessian_inner_body_run Fm dform sub a r1 c1 V r2 s :
  test_space Fm c1 = Some V ->
  hessian_inner_body dform sub (Some a) r1 c1
    (ad_function_space c1 (ufl_domain_cargo Fm)) tt r2 s
  = (Ok tt,
     let c2 := bo_output (edges s r2) in
     match bo_tlm_value (edges s r2) with
     | Some t =>
         hessian_added r1
           (wrap c1 V
              (mul a (backend_assemble
                        (derivative dform (dict_get sub c2 c2) t)))) s
     | None => s
     end).
Proof.
  unfold test_space, wrap, hessian_inner_body, py_mul. run.
  destruct (bo_tlm_value (edges s r2)) as [t|]; [|done].
  destruct (class_of c1) eqn:Hc; intros HV; simplify_eq.
  - by rewrite (isinstance_true _ ClsFunction) by done.
  - by rewrite (isinstance_false _ ClsFunction),
      (isinstance_false _ ClsExpression), (isinstance_true _ ClsConstant)
      by congruence.
  - by rewrite (isinstance_false _ ClsFunction),
      (isinstance_true _ ClsExpression) by congruence.
Qed.

Lemma hessian_inner_loop s Fm dform sub a r1 c1 V deps : forall s',
  test_space Fm c1 = Some V ->
  same_inputs s s' ->
  for_each (hessian_inner_body dform sub (Some a) r1 c1
              (ad_function_space c1 (ufl_domain_cargo Fm))) tt deps s'
  = (Ok tt,
     foldl (fun s2 r2 =>
              let c2 := bo_output (edges s r2) in
              match bo_tlm_value (edges s r2) with
              | Some t =>
                  hessian_added r1
                    (wrap c1 V
                       (mul a (backend_assemble
                                 (derivative dform (dict_get sub c2 c2) t))))
                    s2
              | None => s2
              end) s' deps).
Proof.
  intros s' HV. revert s'.
  induction deps as [|r2 deps IH]; intros s' Hs; [done|].
  simpl. unfold bind at 1.
  rewrite (hessian_inner_body_run Fm dform sub a r1 c1 V) by done.
  destruct (Hs r2) as [-> ->].
  apply IH.
  destruct (bo_tlm_value (edges s r2)); [|done].
  by apply same_inputs_hessian_added.
Qed.

Lemma hessian_spec_outer_inputs s self a h s' r1 :
  same_inputs s s' -> same_inputs s (hessian_spec_outer s self a h s' r1).
Proof.
  intros Hs. unfold hessian_spec_outer.
  destruct (test_space _ _) as [V|]; [|done].
  apply same_inputs_hessian_added, same_inputs_fold; [|done].
  intros s2 r2 H2. simpl.
  destruct (bo_tlm_value (edges s r2)); [|done].
  by apply same_inputs_hessian_added.
Qed.

Lemma hessian_outer_body_run s self a h r1 s' :
  same_inputs s s' ->
  hessian_outer_body (substituted_form s self)
    (substitution s (dependencies (blocks s self))) h (Some a)
    (dependencies (blocks s self)) tt r1 s'
  = (Ok tt, hessian_spec_outer s self a h s' r1).
Proof.
  intros Hs. unfold hessian_outer_body, hessian_spec_outer. run.
  destruct (Hs r1) as [-> _].
  set (c1 := bo_output (edges s r1)).
  set (F' := substituted_form s self).
  set (sub := substitution s (dependencies (blocks s self))).
  destruct (test_space F' c1) as [V|] eqn:HV.
  - assert (Hrest : forall dc,
      dc = TestFunction V ->
      hessian_outer_rest F' sub h (Some a) (dependencies (blocks s self))
        r1 c1 (dict_get sub c1 c1) dc
        (ad_function_space c1 (ufl_domain_cargo F')) s'
      = (Ok tt,
         hessian_added r1
           (wrap c1 V
              (mul h (backend_assemble
                        (derivative F' (dict_get sub c1 c1) (TestFunction V)))))
           (foldl (fun s2 r2 =>
                     let c2 := bo_output (edges s r2) in
                     match bo_tlm_value (edges s r2) with
                     | Some t =>
                         hessian_added r1
                           (wrap c1 V
                              (mul a (backend_assemble
                                        (derivative
                                           (derivative F' (dict_get sub c1 c1)
                                              (TestFunction V))
                                           (dict_get sub c2 c2) t))))
                           s2
                     | None => s2
                     end) s' (dependencies (blocks s self))))).
    { intros dc ->. unfold hessian_outer_rest. unfold bind at 1.
      rewrite (hessian_inner_loop s F' _ sub a r1 c1 V) by done.
      unfold test_space, wrap in *.
      destruct (class_of c1) eqn:Hc; simplify_eq.
      - by rewrite (isinstance_false _ ClsExpression) by congruence.
      - by rewrite (isinstance_false _ ClsExpression) by congruence.
      - by rewrite (isinstance_true _ ClsExpression) by congruence. }
    unfold test_space in HV.
    destruct (class_of c1) eqn:Hc; simplify_eq.
    + rewrite (isinstance_true _ ClsFunction) by done. by apply Hrest.
    + rewrite (isinstance_false _ ClsFunction),
        (isinstance_false _ ClsExpression), (isinstance_true _ ClsConstant)
        by congruence.
      by apply Hrest.
    + rewrite (isinstance_false _ ClsFunction),
        (isinstance_true _ ClsExpression) by congruence.
      by apply Hrest.
  - unfold test_space in HV.
    destruct (class_of c1) eqn:Hc; simplify_eq.
    by rewrite !isinstance_false by congruence.
Qed.

Lemma hessian_outer_loop s self a h deps : forall s',
  same_inputs s s' ->
  for_each (hessian_outer_body (substituted_form s self)
              (substitution s (dependencies (blocks s self))) h (Some a)
              (dependencies (blocks s self))) tt deps s'
  = (Ok tt, foldl (hessian_spec_outer s self a h) s' deps).
Proof.
  induction deps as [|r1 deps IH]; intros s' Hs; [done|].
  simpl. unfold bind at 1. rewrite hessian_outer_body_run by done.
  apply IH. by apply hessian_spec_outer_inputs.
Qed.

Lemma merged_app old xs ys :
  merged old (xs ++ ys) = merged (merged old xs) ys.
Proof. unfold merged. apply foldl_app. Qed.

(** What the contributions of the specification do to the accumulator of
    the outer dependency, and that they touch no other edge. *)
Lemma hessian_spec_outer_value s self a h s' r1 :
  bo_hessian_value (edges (hessian_spec_outer s self a h s' r1) r1)
  = merged (bo_hessian_value (edges s' r1))
           (hessian_contributions s self a h r1).
Proof.
  unfold hessian_spec_outer, hessian_contributions. cbv zeta.
  destruct (test_space _ _) as [V|]; [|done].
  rewrite hessian_added_hessian_eq, merged_app. simpl. do 2 f_equal.
  match goal with
  | |- bo_hessian_value (edges (foldl ?F _ ?D) _) = merged _ (flat_map ?G ?D) =>
      assert (H : forall l s2,
                bo_hessian_value (edges (foldl F s2 l) r1)
                = merged (bo_hessian_value (edges s2 r1)) (flat_map G l));
        [|apply H]
  end.
  induction l as [|r2 l IH]; intros s2; [done|].
  simpl. rewrite IH, merged_app. f_equal.
  destruct (bo_tlm_value (edges s r2)); [|done].
  simpl. apply hessian_added_hessian_eq.
Qed.

Lemma hessian_spec_outer_other s self a h s' r1 r :
  r1 <> r -> edges (hessian_spec_outer s self a h s' r1) r = edges s' r.
Proof.
  intros Hne. unfold hessian_spec_outer. cbv zeta.
  destruct (test_space _ _) as [V|]; [|done].
  rewrite hessian_added_ne by done.
  match goal with
  | |- edges (foldl ?F _ ?D) _ = _ =>
      assert (H : forall l s2, edges (foldl F s2 l) r = edges s2 r);
        [|apply H]
  end.
  induction l as [|r2 l IH]; intros s2; [done|].
  simpl. rewrite IH.
  destruct (bo_tlm_value (edges s r2)); [|done].
  by apply hessian_added_ne.
Qed.

Lemma hessian_spec_value s self a h l : forall s' r1,
  NoDup l -> r1 ∈ l ->
  bo_hessian_value (edges (foldl (hessian_spec_outer s self a h) s' l) r1)
  = merged (bo_hessian_value (edges s' r1))
           (hessian_contributions s self a h r1).
Proof.
  assert (Hframe : forall l s' r, r ∉ l ->
    edges (foldl (hessian_spec_outer s self a h) s' l) r = edges s' r).
  { clear. induction l as [|r0 l IH]; intros s' r Hr; [done|].
    apply not_elem_of_cons in Hr as [Hne Hr]. simpl. rewrite IH by done.
    by apply hessian_spec_outer_other. }
  induction l as [|r0 l IH]; intros s' r1 Hnd Hin.
  - by apply elem_of_nil in Hin.
  - pose proof (NoDup_cons_1_1 _ _ Hnd) as Hnotin.
    apply NoDup_cons_1_2 in Hnd.
    apply elem_of_cons in Hin as [->|Hin]; simpl.
    + rewrite Hframe by done. apply hessian_spec_outer_value.
    + rewrite IH by done.
      assert (r0 <> r1) by (intros ->; done).
      by rewrite hessian_spec_outer_other.
Qed.

(** C2, as amended.  With a Hessian seed and an adjoint seed on the
    output, Hessian propagation takes, for each outer dependency c1 of a
    recognised kind, the first derivative of the substituted form against
    c1's test direction; merges, for each inner dependency c2 that carries
    a tangent value, adjoint seed x assembled second derivative with
    respect to c2 in the tangent direction into the Hessian accumulator
    of c1; and after the inner loop merges Hessian seed x assembled first
    derivative into it.  The contributions to an expression are
    (value, space) pairs; an outer dependency of no recognised kind gets
    nothing.  Where the edges are distinct objects, the accumulator of
    each dependency ends up with exactly these contributions merged into
    what it held, in this order. *)
Theorem evaluate_hessian_accumulates s self out rest adj_seed hessian_seed :
  outputs (blocks s self) = out :: rest ->
  os_hessian_value (slots s out) = Some hessian_seed ->
  os_adj_value (slots s out) = Some adj_seed ->
  evaluate_hessian self s = (Ok tt, hessian_spec s self adj_seed hessian_seed)
  /\ (NoDup (dependencies (blocks s self)) ->
      forall r1, r1 ∈ dependencies (blocks s self) ->
      bo_hessian_value (edges (evaluate_hessian self s).2 r1)
      = merged (bo_hessian_value (edges s r1))
               (hessian_contributions s self adj_seed hessian_seed r1)).
Proof.
  intros Hout Hh Ha.
  assert (E : evaluate_hessian self s
              = (Ok tt, hessian_spec s self adj_seed hessian_seed)).
  { unfold evaluate_hessian, get_outputs_0.
    unfold bind at 1. rewrite Hout. run. rewrite Hout, Hh, Ha. run.
    rewrite replaced_coeffs_of_run.
    apply hessian_outer_loop, same_inputs_refl. }
  split; [exact E|]. intros Hnd r1 Hr1. rewrite E. simpl.
  unfold hessian_spec. by apply hessian_spec_value.
Qed.

(** *** Recompute *)

Lemma recompute_run s self out rest :
  outputs (blocks s self) = out :: rest ->
  recompute self s
  = (Ok tt,
     checkpoint_set out (backend_assemble (substituted_form s self))
       (set_next_slot (S (next_slot s))
          (set_slots (fun h => <[next_slot s := empty_slot]> h) s))).
Proof.
  intros Hout. unfold recompute, create_overloaded_object, get_outputs_0.
  run. rewrite replaced_coeffs_of_run. by rewrite Hout.
Qed.

(** C6.  Recompute stores, as the checkpoint of the node's output, the
    result of assembling the form with each dependency's checkpointed
    value substituted for its coefficient; a second recompute on
    unchanged dependencies stores the same checkpoint. *)
Theorem recompute_checkpoint s self out rest :
  outputs (blocks s self) = out :: rest ->
  let s1 := (recompute self s).2 in
  let s2 := (recompute self s1).2 in
  (recompute self s).1 = Ok tt
  /\ os_checkpoint (slots s1 out)
     = Some (backend_assemble (substituted_form s self))
  /\ (recompute self s1).1 = Ok tt
  /\ os_checkpoint (slots s2 out) = os_checkpoint (slots s1 out).
Proof.
  intros Hout. simpl.
  rewrite (recompute_run s self out rest Hout). simpl.
  rewrite (recompute_run _ self out rest) by done. simpl.
  rewrite !fn_lookup_insert. done.
Qed.

(** *** The stored form *)

Lemma keeps_ret {X} (x : X) : keeps_blocks (ret x).
Proof. done. Qed.

Lemma keeps_raise {X} e : keeps_blocks (raise e : M X).
Proof. done. Qed.

Lemma keeps_gets {X} (f : State -> X) : keeps_blocks (gets f).
Proof. done. Qed.

Lemma keeps_modify f :
  (forall s, blocks (f s) = blocks s) -> keeps_blocks (modify f).
Proof. intros H s. apply H. Qed.

Lemma keeps_bind {X Y} (m : M X) (k : X -> M Y) :
  keeps_blocks m -> (forall x, keeps_blocks (k x)) -> keeps_blocks (bind m k).
Proof.
  intros Hm Hk s. unfold bind. specialize (Hm s).
  destruct (m s) as [[x|e] s']; simpl in *; [|done].
  by rewrite Hk.
Qed.

Lemma keeps_for_each {X L} (body : L -> X -> M L) l :
  (forall acc x, keeps_blocks (body acc x)) ->
  forall acc, keeps_blocks (for_each body acc l).
Proof.
  intros Hb. induction l as [|x l IH]; intros acc; simpl.
  - apply keeps_ret.
  - apply keeps_bind; [apply Hb | apply IH].
Qed.

Lemma keeps_get_outputs_0 self : keeps_blocks (get_outputs_0 self).
Proof. intros s. unfold get_outputs_0. by destruct (outputs _). Qed.

Lemma keeps_create_overloaded_object x :
  keeps_blocks (create_overloaded_object x).
Proof. done. Qed.

Lemma keeps_py_mul a x : keeps_blocks (py_mul a x).
Proof. by destruct a. Qed.

Ltac keeps :=
  repeat first
    [ apply keeps_ret | apply keeps_raise | apply keeps_gets
    | apply keeps_get_outputs_0 | apply keeps_create_overloaded_object
    | apply keeps_py_mul
    | apply keeps_modify; intros ?; reflexivity
    | apply keeps_bind; [|intros ?]
    | apply keeps_for_each; intros ? ?
    | progress cbv zeta
    | match goal with
      | |- keeps_blocks (match ?x with _ => _ end) => destruct x
      end ].

Lemma keeps_replaced_coeffs_of deps : keeps_blocks (replaced_coeffs_of deps).
Proof.
  unfold replaced_coeffs_of, get_output, get_saved_output. keeps.
Qed.

Lemma keeps_invoke op self : keeps_blocks (invoke op self).
Proof.
  destruct op; simpl.
  - unfold recompute. keeps.
  - unfold evaluate_adj. keeps.
  - unfold evaluate_tlm. keeps.
  - unfold evaluate_hessian. keeps.
Qed.

(** C9.  Whatever sequence of recompute, adjoint, tangent and Hessian
    invocations runs on a node, and whether or not some of them raise,
    the form stored on the node (and on every other node) is the one
    it had before: the operations work on the substituted form that
    [replace] returns and never assign to the stored one. *)
Theorem stored_form_never_mutated ops self s :
  blocks (invoke_all ops self s) = blocks s
  /\ form (blocks (invoke_all ops self s) self) = form (blocks s self).
Proof.
  assert (H : blocks (invoke_all ops self s) = blocks s).
  { unfold invoke_all. revert s.
    induction ops as [|op ops IH]; intros s; [done|].
    simpl. rewrite IH. apply keeps_invoke. }
  split; [done|]. by rewrite H.
Qed.

(** *** Construction *)

Lemma init_loop self cs : forall s',
  exists bl,
    for_each (fun (_ : unit) c =>
                bind (get_block_output c) (fun dep => add_dependency self dep))
             tt cs s'
    = (Ok tt,
       mkState bl (next_block s') (edges s') (slots s') (next_slot s')
               (tape s') (block_output_of s'))
    /\ bl self
       = mkBlock (form (blocks s' self))
                 (dependencies (blocks s' self) ++ map (block_output_of s') cs)
                 (outputs (blocks s' self))
    /\ forall b, b <> self -> bl b = blocks s' b.
Proof.
  induction cs as [|c cs IH]; intros s'.
  - exists (blocks s'). split; [by destruct s'|]. split; [|done].
    simpl. rewrite app_nil_r. by destruct (blocks s' self).
  - simpl. run.
    destruct (IH (set_blocks (fun h =>
                <[self := mkBlock (form (h self))
                            (dependencies (h self) ++ [block_output_of s' c])
                            (outputs (h self))]> h) s'))
      as (bl & E & Hself & Hother).
    exists bl. split; [exact E|]. simpl in Hself, Hother. split.
    + rewrite Hself, fn_lookup_insert. simpl. by rewrite <- app_assoc.
    + intros b Hb. rewrite Hother by done. by rewrite fn_lookup_insert_ne.
Qed.

Lemma AssembleBlock_init_run F s :
  exists bl,
    AssembleBlock_init F s
    = (Ok (next_block s),
       mkState bl (S (next_block s)) (edges s) (slots s) (next_slot s)
               (tape s) (block_output_of s))
    /\ bl (next_block s) = mkBlock F (init_dependencies s F) []
    /\ forall b, b <> next_block s -> bl b = blocks s b.
Proof.
  destruct (init_loop (next_block s) (coefficients F)
              (set_next_block (S (next_block s))
                 (set_blocks (fun h => <[next_block s := mkBlock F [] []]> h) s)))
    as (bl & E & Hself & Hother).
  exists bl. unfold AssembleBlock_init.
  unfold bind at 1. unfold gets at 1. cbv beta iota.
  unfold bind at 1. unfold modify at 1. cbv beta iota.
  unfold bind at 1. rewrite E. simpl in *. split; [done|]. split.
  - rewrite Hself, fn_lookup_insert. done.
  - intros b Hb. rewrite Hother by done. by rewrite fn_lookup_insert_ne.
Qed.

(** C8.  The node built from a form has one dependency edge per
    coefficient that [coefficients] lists, in that order.  The library
    lists each coefficient once and distinct coefficients own distinct
    block outputs; so no edge occurs twice, edges and coefficients
    correspond one to one, and building the node again, from any store
    in which the coefficients own the same block outputs, gives the same
    edges in the same order. *)
Theorem init_one_edge_per_coefficient F s :
  NoDup (coefficients F) ->
  (forall c c', c ∈ coefficients F -> c' ∈ coefficients F ->
                block_output_of s c = block_output_of s c' -> c = c') ->
  let built := AssembleBlock_init F s in
  let deps := dependencies (blocks built.2 (next_block s)) in
  built.1 = Ok (next_block s)
  /\ form (blocks built.2 (next_block s)) = F
  /\ deps = map (block_output_of s) (coefficients F)
  /\ NoDup deps
  /\ length deps = length (coefficients F)
  /\ (forall r, r ∈ deps <->
                exists c, c ∈ coefficients F /\ r = block_output_of s c)
  /\ (forall s2, (forall c, block_output_of s2 c = block_output_of s c) ->
       dependencies (blocks (AssembleBlock_init F s2).2 (next_block s2)) = deps).
Proof.
  intros Hnd Hinj. simpl.
  destruct (AssembleBlock_init_run F s) as (bl & E & Hself & _).
  rewrite E. simpl. rewrite Hself. simpl. unfold init_dependencies.
  split; [done|]. split; [done|]. split; [done|]. split; [|split; [|split]].
  - revert Hnd Hinj. generalize (coefficients F) as cs.
    induction cs as [|c cs IH]; intros Hnd Hinj; simpl.
    + constructor.
    + pose proof (NoDup_cons_1_1 _ _ Hnd) as Hnotin.
      apply NoDup_cons_1_2 in Hnd.
      apply NoDup_cons_2.
      * intros Hin. apply list_elem_of_In, in_map_iff in Hin.
        destruct Hin as (c' & Heq & Hc').
        apply list_elem_of_In in Hc'.
        assert (c = c') as ->; [|done].
        apply Hinj; [by left | by right | done].
      * apply IH; [done|].
        intros c1 c2 H1 H2. apply Hinj; by right.
  - by rewrite length_map.
  - intros r. rewrite list_elem_of_In, in_map_iff. split.
    + intros (c & <- & Hc). exists c. by rewrite list_elem_of_In.
    + intros (c & Hc & ->). exists c. by rewrite <- list_elem_of_In.
  - intros s2 Hsame.
    destruct (AssembleBlock_init_run F s2) as (bl2 & E2 & Hself2 & _).
    rewrite E2. simpl. rewrite Hself2. simpl. unfold init_dependencies.
    apply map_ext. intros c. apply Hsame.
Qed.

(** *** The overloaded assemble *)

Lemma assemble_float_run annotate F s :
  is_float (backend_assemble F) = true ->
  exists s',
    assemble annotate F s
    = (Ok (mkAssembled (backend_assemble F) None (Some (next_slot s))), s')
    /\ slots s' = <[next_slot s := empty_slot]> (slots s)
    /\ next_slot s' = S (next_slot s)
    /\ edges s' = edges s
    /\ if annotate then
         tape s' = tape s ++ [next_block s]
         /\ next_block s' = S (next_block s)
         /\ blocks s' (next_block s)
            = mkBlock F (init_dependencies s F) [next_slot s]
         /\ forall b, b <> next_block s -> blocks s' b = blocks s b
       else
         tape s' = tape s /\ next_block s' = next_block s
         /\ blocks s' = blocks s.
Proof.
  intros Hf. unfold assemble. rewrite Hf.
  unfold bind at 1. unfold create_overloaded_object at 1.
  cbv beta iota zeta. destruct annotate.
  - destruct (AssembleBlock_init_run F
                (set_next_slot (S (next_slot s))
                   (set_slots (fun h => <[next_slot s := empty_slot]> h) s)))
      as (bl & E & Hself & Hother).
    unfold bind at 1. unfold bind at 1. rewrite E. run. simpl in *.
    eexists. split; [reflexivity|]. simpl.
    repeat split; try done.
    + rewrite fn_lookup_insert, Hself. done.
    + intros b Hb. rewrite fn_lookup_insert_ne by done. by apply Hother.
  - eexists. split; [reflexivity|]. done.
Qed.

(** C5.  A node is created, registered on the tape and linked to the
    slot of the returned value exactly when annotation is active and the
    backend result is a scalar.  Otherwise the tape and the nodes are as
    before, and a vector or matrix result is returned with the form
    attached and the store untouched. *)
Theorem assemble_annotates_iff_scalar annotate F s :
  let output := backend_assemble F in
  let r := assemble annotate F s in
  if annotate && is_float output then
    r.1 = Ok (mkAssembled output None (Some (next_slot s)))
    /\ tape r.2 = tape s ++ [next_block s]
    /\ next_block r.2 = S (next_block s)
    /\ blocks r.2 (next_block s)
       = mkBlock F (init_dependencies s F) [next_slot s]
    /\ (forall b, b <> next_block s -> blocks r.2 b = blocks s b)
  else
    tape r.2 = tape s
    /\ next_block r.2 = next_block s
    /\ blocks r.2 = blocks s
    /\ (is_float output = false ->
        r = (Ok (mkAssembled output (Some F) None), s)).
Proof.
  simpl. destruct (is_float (backend_assemble F)) eqn:Hf.
  - destruct (assemble_float_run annotate F s Hf)
      as (s' & E & _ & _ & _ & H).
    rewrite E. destruct annotate; simpl.
    + destruct H as (? & ? & ? & ?). done.
    + destruct H as (? & ? & ?). done.
  - rewrite andb_false_r. unfold assemble. rewrite Hf. done.
Qed.

(** C10.  When the backend result is a float, [assemble] returns the
    annotated wrapper of that float, with a block output of its own and
    no form attached, whether or not annotation is active; the form is
    attached to a vector or matrix result only. *)
Theorem assemble_float_is_wrapped annotate F s :
  let output := backend_assemble F in
  let r := assemble annotate F s in
  if is_float output then
    r.1 = Ok (mkAssembled output None (Some (next_slot s)))
    /\ slots r.2 (next_slot s) = empty_slot
    /\ next_slot r.2 = S (next_slot s)
  else
    r.1 = Ok (mkAssembled output (Some F) None).
Proof.
  simpl. destruct (is_float (backend_assemble F)) eqn:Hf.
  - destruct (assemble_float_run annotate F s Hf)
      as (s' & E & Hs & Hn & _).
    rewrite E. simpl. rewrite Hs, fn_lookup_insert. done.
  - unfold assemble. rewrite Hf. done.
Qed.

End Theory.

(** ** The theorems at work on the symbolic backend *)

Section Examples.
Import Sym.

Lemma evaluate_adj_accumulates_witness :
  evaluate_adj 0 st_adj = (Ok tt, adj_spec st_adj 0 (Lit 3))
  /\ bo_adj_value (edges (adj_spec st_adj 0 (Lit 3)) 2)
     = Some (Paired
               [(Times (Lit 3)
                   (Assembled_
                      (Derivative
                         (Replace J [(u, saved u); (k, saved k); (e, saved e)])
                         (saved e) (Test (AdSpace e (Cargo J))))),
                 AdSpace e (Cargo J))]).
Proof.
  destruct (evaluate_adj_accumulates st_adj 0 0 [] (Lit 3)) as [E _].
  - reflexivity.
  - reflexivity.
  - repeat constructor.
  - split; [exact E | reflexivity].
Defined.

Lemma evaluate_hessian_accumulates_witness :
  evaluate_hessian 0 st_hessian
  = (Ok tt, hessian_spec st_hessian 0 (Lit 3) (Lit 5))
  /\ bo_hessian_value (edges (evaluate_hessian 0 st_hessian).2 0)
     = Some (Bare
               (Plus
                  (Times (Lit 3)
                     (Assembled_
                        (Derivative
                           (Derivative
                              (Replace J [(u, saved u); (k, saved k); (e, saved e)])
                              (saved u) (Test (SpaceOf u)))
                           (saved k) (Tangent 1))))
                  (Times (Lit 5)
                     (Assembled_
                        (Derivative
                           (Replace J [(u, saved u); (k, saved k); (e, saved e)])
                           (saved u) (Test (SpaceOf u)))))))
  /\ bo_hessian_value (edges (evaluate_hessian 0 st_hessian).2 2)
     = Some (Paired
               [(Times (Lit 3)
                   (Assembled_
                      (Derivative
                         (Derivative
                            (Replace J [(u, saved u); (k, saved k); (e, saved e)])
                            (saved e)
                            (Test
                               (AdSpace e
                                  (Cargo
                                     (Replace J
                                        [(u, saved u); (k, saved k);
                                         (e, saved e)])))))
                         (saved k) (Tangent 1))),
                 AdSpace e
                   (Cargo (Replace J [(u, saved u); (k, saved k); (e, saved e)])));
                (Times (Lit 5)
                   (Assembled_
                      (Derivative
                         (Replace J [(u, saved u); (k, saved k); (e, saved e)])
                         (saved e)
                         (Test
                            (AdSpace e
                               (Cargo
                                  (Replace J
                                     [(u, saved u); (k, saved k);
                                      (e, saved e)])))))),
                 AdSpace e
                   (Cargo (Replace J [(u, saved u); (k, saved k); (e, saved e)])))]).
Proof.
  destruct (evaluate_hessian_accumulates st_hessian 0 0 [] (Lit 3) (Lit 5))
    as [E H].
  - reflexivity.
  - reflexivity.
  - reflexivity.
  - assert (Hnd : NoDup (dependencies (blocks st_hessian 0)))
      by (apply (bool_decide_unpack _); vm_compute; exact I).
    split; [exact E|]. split.
    + rewrite (H Hnd 0) by (by left). reflexivity.
    + rewrite (H Hnd 2) by (right; right; by left). reflexivity.
Defined.

(** C2, as stated, fails: a node with a Hessian seed whose dependency
    carries a tangent value, but whose output has no adjoint seed, raises
    and the dependency's Hessian accumulator receives nothing, neither a
    second-derivative contribution nor the Hessian seed x first
    derivative. *)
Lemma hessian_seed_alone_accumulates_nothing :
  os_hessian_value (slots st_no_adj 0) = Some (Lit 5)
  /\ bo_tlm_value (edges st_no_adj 0) = Some (Tangent 0)
  /\ recognized (bo_output (edges st_no_adj 0)) = true
  /\ (evaluate_hessian 0 st_no_adj).1 = Raise TypeError
  /\ bo_hessian_value (edges (evaluate_hessian 0 st_no_adj).2 0) = None.
Proof. repeat split. Qed.

Lemma evaluate_tlm_uniform_witness :
  evaluate_tlm 0 st_tlm = (Ok tt, tlm_spec st_tlm 0 0)
  /\ os_tlm_value (slots (evaluate_tlm 0 st_tlm).2 0)
     = Some (Plus
               (Plus
                  (Assembled_
                     (Derivative
                        (Replace J [(u, saved u); (k, saved k); (e, saved e)])
                        (saved u) (Tangent 0)))
                  (Assembled_
                     (Derivative
                        (Replace J [(u, saved u); (k, saved k); (e, saved e)])
                        (saved k) (Tangent 1))))
               (Assembled_
                  (Derivative
                     (Replace J [(u, saved u); (k, saved k); (e, saved e)])
                     (saved e) (Tangent 2)))).
Proof.
  destruct (evaluate_tlm_uniform st_tlm 0 0 [] eq_refl) as [E H].
  split; [exact E|]. rewrite H. reflexivity.
Defined.

Lemma missing_seed_noop_witness :
  evaluate_adj 0 st_idle = (Ok tt, st_idle)
  /\ evaluate_tlm 0 st_idle = (Ok tt, st_idle)
  /\ evaluate_hessian 0 st_idle = (Ok tt, st_idle).
Proof.
  destruct (missing_seed_noop st_idle 0 0 [] eq_refl) as (Ha & Ht & Hh).
  split; [|split].
  - apply Ha. reflexivity.
  - apply Ht. intros r _. reflexivity.
  - apply Hh. reflexivity.
Defined.

Lemma recompute_checkpoint_witness :
  os_checkpoint (slots (recompute 0 st_adj).2 0)
  = Some (Assembled_ (Replace J [(u, saved u); (k, saved k); (e, saved e)]))
  /\ os_checkpoint (slots (recompute 0 (recompute 0 st_adj).2).2 0)
     = os_checkpoint (slots (recompute 0 st_adj).2 0).
Proof.
  destruct (recompute_checkpoint st_adj 0 0 [] eq_refl) as (_ & H1 & _ & H2).
  split; [exact H1 | exact H2].
Defined.

Lemma init_one_edge_per_coefficient_witness :
  dependencies (blocks (AssembleBlock_init J st_adj).2 1) = [0; 1; 2]
  /\ NoDup (dependencies (blocks (AssembleBlock_init J st_adj).2 1)).
Proof.
  destruct (init_one_edge_per_coefficient (B := backend) J st_adj) as (_ & _ & Hd & Hn & _).
  - apply (bool_decide_unpack _). vm_compute. exact I.
  - intros c c' Hc Hc'.
    apply list_elem_of_In in Hc, Hc'. simpl in Hc, Hc'.
    intuition (subst; first [reflexivity | discriminate]).
  - split; [exact Hd | exact Hn].
Defined.

(** C3, on the code.  Adjoint propagation does not skip a coefficient
    of no recognised class: as the first dependency it ends the pass
    with an unbound [dc]; after a field it receives a contribution,
    differentiated in the field's test direction. *)
Theorem evaluate_adj_unrecognized_not_skipped :
  evaluate_adj 0 st_other = (Raise UnboundLocalError, st_other)
  /\ (evaluate_adj 0 st_stale).1 = Ok tt
  /\ bo_adj_value (edges (evaluate_adj 0 st_stale).2 1)
     = Some (Bare
               (Times (Lit 3)
                  (Assembled_
                     (Derivative
                        (Replace (Base 9 0 [u; y]) [(u, saved u); (y, saved y)])
                        (saved y) (Test (SpaceOf u)))))).
Proof. repeat split. Qed.

(** C4, as stated, fails: with a Hessian seed but neither an adjoint
    seed nor any tangent value, Hessian propagation changes the
    accumulator of the dependency; with a tangent value and no adjoint
    seed it raises. *)
Lemma hessian_missing_input_not_noop :
  os_adj_value (slots st_curvature 0) = None
  /\ (forall r, bo_tlm_value (edges st_curvature r) = None)
  /\ bo_hessian_value (edges st_curvature 0) = None
  /\ bo_hessian_value (edges (evaluate_hessian 0 st_curvature).2 0)
     = Some (Bare
               (Times (Lit 5)
                  (Assembled_
                     (Derivative
                        (Replace (Base 10 0 [u]) [(u, saved u)])
                        (saved u) (Test (SpaceOf u))))))
  /\ os_adj_value (slots st_no_adj 0) = None
  /\ (evaluate_hessian 0 st_no_adj).1 = Raise TypeError.
Proof. repeat split. Qed.

End Examples.

(** ** Further properties of the operations *)

Section Propagation.
Context `{B : Backend} `{A : !Accumulators}.

Ltac step := unfold bind, ret, raise, gets, modify, get_output,
  get_saved_output, get_tlm_value, get_dependencies, get_form,
  get_adj_output, get_hessian_value, add_adj_output, add_hessian_output,
  add_tlm_output; simpl.

(** *** Preservation, rule by rule *)

Lemma preserves_ret {X} P (x : X) : preserves P (ret x).
Proof. by intros s. Qed.

Lemma preserves_raise {X} P e : preserves P (raise e : M X).
Proof. by intros s. Qed.

Lemma preserves_gets {X} P (f : State -> X) : preserves P (gets f).
Proof. by intros s. Qed.

Lemma preserves_modify P f :
  (forall s, P s -> P (f s)) -> preserves P (modify f).
Proof. intros H s. apply H. Qed.

Lemma preserves_bind {X Y} P (m : M X) (k : X -> M Y) :
  preserves P m -> (forall x, preserves P (k x)) -> preserves P (bind m k).
Proof.
  intros Hm Hk s Hs. unfold bind. specialize (Hm s Hs).
  destruct (m s) as [[x|e] s']; simpl in *; [|done].
  by apply Hk.
Qed.

Lemma preserves_for_each {X L} P (body : L -> X -> M L) l :
  (forall acc x, x ∈ l -> preserves P (body acc x)) ->
  forall acc, preserves P (for_each body acc l).
Proof.
  induction l as [|x l IH]; intros Hb acc; simpl.
  - apply preserves_ret.
  - apply preserves_bind; [apply Hb; by left|].
    intros acc'. apply IH. intros acc'' x' Hx'. apply Hb. by right.
Qed.

Lemma preserves_get_outputs_0 P self : preserves P (get_outputs_0 self).
Proof. intros s Hs. unfold get_outputs_0. by destruct (outputs _). Qed.

Lemma preserves_py_mul P a x : preserves P (py_mul a x).
Proof. destruct a; [apply preserves_ret | apply preserves_raise]. Qed.

Ltac pres :=
  repeat first
    [ apply preserves_ret | apply preserves_raise | apply preserves_gets
    | apply preserves_get_outputs_0 | apply preserves_py_mul
    | apply preserves_bind; [|intros ?]
    | progress cbv zeta
    | match goal with
      | |- preserves _ (match ?x with _ => _ end) => destruct x
      end ].

Lemma preserves_replaced_coeffs_of P deps :
  preserves P (replaced_coeffs_of deps).
Proof.
  unfold replaced_coeffs_of. apply preserves_for_each. intros acc x _.
  unfold get_output, get_saved_output. pres.
Qed.

Lemma preserves_adj_body P Fm F' sub seed dc r :
  (forall v s, P s -> P (adj_added r v s)) ->
  preserves P (adj_body Fm F' sub seed dc r).
Proof.
  intros H. unfold adj_body, get_output, add_adj_output.
  pres; apply preserves_modify, H.
Qed.

Lemma preserves_tlm_body P self F' sub r :
  (forall o v s, P s -> P (tlm_added o v s)) ->
  preserves P (tlm_body self F' sub tt r).
Proof.
  intros H. unfold tlm_body, get_output, get_tlm_value, add_tlm_output.
  pres; apply preserves_modify, H.
Qed.

Lemma preserves_hessian_inner_body P dform sub a bo1 c1 W bo2 :
  (forall v s, P s -> P (hessian_added bo1 v s)) ->
  preserves P (hessian_inner_body dform sub a bo1 c1 W tt bo2).
Proof.
  intros H.
  unfold hessian_inner_body, get_output, get_tlm_value, add_hessian_output.
  pres; apply preserves_modify, H.
Qed.

Lemma preserves_hessian_outer_body P F' sub h a deps bo1 :
  (forall v s, P s -> P (hessian_added bo1 v s)) ->
  preserves P (hessian_outer_body F' sub h a deps tt bo1).
Proof.
  intros H.
  unfold hessian_outer_body, hessian_outer_rest, get_output,
    add_hessian_output.
  pres;
    first [ apply preserves_modify, H
          | apply preserves_for_each; intros [] bo2 _;
            by apply preserves_hessian_inner_body ].
Qed.

(** *** What each operation does before its loop *)

Lemma evaluate_adj_shape self s :
  evaluate_adj self s
  = match outputs (blocks s self) with
    | [] => (Raise IndexError, s)
    | out :: _ =>
        match os_adj_value (slots s out) with
        | None => (Ok tt, s)
        | Some seed =>
            bind (for_each
                    (adj_body (form (blocks s self)) (substituted_form s self)
                       (substitution s (dependencies (blocks s self))) seed)
                    None (dependencies (blocks s self)))
                 (fun _ => ret tt) s
        end
    end.
Proof.
  unfold evaluate_adj, get_outputs_0. unfold bind at 1.
  destruct (outputs (blocks s self)) as [|out rest]; [done|].
  unfold bind at 1, get_adj_output at 1, gets at 1. cbv beta iota.
  destruct (os_adj_value (slots s out)) as [seed|]; [|done].
  unfold bind at 1, get_dependencies at 1, gets at 1. cbv beta iota.
  unfold bind at 1. rewrite replaced_coeffs_of_run.
  unfold bind at 1, get_form at 1, gets at 1. cbv beta iota zeta.
  reflexivity.
Qed.

Lemma evaluate_tlm_shape self s :
  evaluate_tlm self s
  = for_each (tlm_body self (substituted_form s self)
                (substitution s (dependencies (blocks s self))))
             tt (dependencies (blocks s self)) s.
Proof.
  unfold evaluate_tlm.
  unfold bind at 1, get_dependencies at 1, gets at 1. cbv beta iota.
  unfold bind at 1. rewrite replaced_coeffs_of_run.
  unfold bind at 1, get_form at 1, gets at 1. cbv beta iota zeta.
  reflexivity.
Qed.

Lemma evaluate_hessian_shape self s :
  evaluate_hessian self s
  = match outputs (blocks s self) with
    | [] => (Raise IndexError, s)
    | out :: _ =>
        match os_hessian_value (slots s out) with
        | None => (Ok tt, s)
        | Some h =>
            for_each
              (hessian_outer_body (substituted_form s self)
                 (substitution s (dependencies (blocks s self))) h
                 (os_adj_value (slots s out)) (dependencies (blocks s self)))
              tt (dependencies (blocks s self)) s
        end
    end.
Proof.
  unfold evaluate_hessian, get_outputs_0. unfold bind at 1.
  destruct (outputs (blocks s self)) as [|out rest] eqn:Hout; [done|].
  unfold bind at 1, get_hessian_value at 1, gets at 1. cbv beta iota.
  unfold bind at 1. rewrite Hout.
  unfold bind at 1, get_adj_output at 1, gets at 1. cbv beta iota.
  destruct (os_hessian_value (slots s out)) as [h|]; [|done].
  unfold bind at 1, get_dependencies at 1, gets at 1. cbv beta iota.
  unfold bind at 1. rewrite replaced_coeffs_of_run.
  unfold bind at 1, get_form at 1, gets at 1. cbv beta iota zeta.
  reflexivity.
Qed.

Lemma bind_ret_tt_state {X} (m : M X) s :
  (bind m (fun _ => ret tt) s).2 = (m s).2.
Proof. unfold bind, ret. by destruct (m s) as [[x|e] s']. Qed.

Lemma adj_added_fields r0 v s r :
  bo_output (edges (adj_added r0 v s) r) = bo_output (edges s r)
  /\ bo_saved_output (edges (adj_added r0 v s) r) = bo_saved_output (edges s r)
  /\ bo_tlm_value (edges (adj_added r0 v s) r) = bo_tlm_value (edges s r)
  /\ bo_hessian_value (edges (adj_added r0 v s) r)
     = bo_hessian_value (edges s r).
Proof.
  unfold adj_added; simpl. destruct (decide (r0 = r)) as [->|Hne].
  - by rewrite fn_lookup_insert.
  - by rewrite fn_lookup_insert_ne.
Qed.

Lemma hessian_added_fields r0 v s r :
  bo_output (edges (hessian_added r0 v s) r) = bo_output (edges s r)
  /\ bo_saved_output (edges (hessian_added r0 v s) r)
     = bo_saved_output (edges s r)
  /\ bo_tlm_value (edges (hessian_added r0 v s) r) = bo_tlm_value (edges s r)
  /\ bo_adj_value (edges (hessian_added r0 v s) r) = bo_adj_value (edges s r).
Proof.
  unfold hessian_added; simpl. destruct (decide (r0 = r)) as [->|Hne].
  - by rewrite fn_lookup_insert.
  - by rewrite fn_lookup_insert_ne.
Qed.

(** X1.  Whatever its outcome, adjoint propagation writes nothing but the
    adjoint accumulators of the node's own dependency edges: blocks,
    output slots and tape stay as they are, every edge keeps its
    coefficient, its saved output, its tangent value and its Hessian
    accumulator, and an edge that is not a dependency of the node is not
    touched at all. *)
Theorem evaluate_adj_frame self s r :
  let s' := (evaluate_adj self s).2 in
  blocks s' = blocks s /\ slots s' = slots s /\ tape s' = tape s
  /\ bo_output (edges s' r) = bo_output (edges s r)
  /\ bo_saved_output (edges s' r) = bo_saved_output (edges s r)
  /\ bo_tlm_value (edges s' r) = bo_tlm_value (edges s r)
  /\ bo_hessian_value (edges s' r) = bo_hessian_value (edges s r)
  /\ (r ∉ dependencies (blocks s self) -> edges s' r = edges s r).
Proof.
  simpl. rewrite evaluate_adj_shape.
  destruct (outputs (blocks s self)) as [|out rest]; [done|].
  destruct (os_adj_value (slots s out)) as [seed|]; [|done].
  rewrite bind_ret_tt_state.
  set (loop := for_each _ _ _).
  assert (Hloop1 : preserves (fun s' =>
            blocks s' = blocks s /\ slots s' = slots s /\ tape s' = tape s
            /\ bo_output (edges s' r) = bo_output (edges s r)
            /\ bo_saved_output (edges s' r) = bo_saved_output (edges s r)
            /\ bo_tlm_value (edges s' r) = bo_tlm_value (edges s r)
            /\ bo_hessian_value (edges s' r) = bo_hessian_value (edges s r))
          loop).
  { apply preserves_for_each. intros dc r0 _. apply preserves_adj_body.
    intros v s' (? & ? & ? & Ho & Hs & Ht & Hh).
    destruct (adj_added_fields r0 v s' r) as (-> & -> & -> & ->). done. }
  destruct (Hloop1 s) as (? & ? & ? & ? & ? & ? & ?); [done|].
  repeat (split; [done|]).
  intros Hr.
  assert (Hloop2 : preserves (fun s' => edges s' r = edges s r) loop).
  { apply preserves_for_each. intros dc r0 Hr0. apply preserves_adj_body.
    intros v s' Hs'. rewrite adj_added_ne; [done|]. by intros ->. }
  by apply Hloop2.
Qed.

(** X2.  Whatever its outcome, Hessian propagation writes nothing but the
    Hessian accumulators of dependency edges whose coefficient is of a
    recognised class: blocks, output slots and tape stay as they are,
    every edge keeps its coefficient, saved output, tangent value and
    adjoint accumulator, and an edge that is not a dependency of the
    node, or whose coefficient is of no recognised class, is not touched
    at all. *)
Theorem evaluate_hessian_frame self s r :
  let s' := (evaluate_hessian self s).2 in
  blocks s' = blocks s /\ slots s' = slots s /\ tape s' = tape s
  /\ bo_output (edges s' r) = bo_output (edges s r)
  /\ bo_saved_output (edges s' r) = bo_saved_output (edges s r)
  /\ bo_tlm_value (edges s' r) = bo_tlm_value (edges s r)
  /\ bo_adj_value (edges s' r) = bo_adj_value (edges s r)
  /\ (r ∉ dependencies (blocks s self)
      \/ recognized (bo_output (edges s r)) = false ->
      edges s' r = edges s r).
Proof.
  simpl. rewrite evaluate_hessian_shape.
  destruct (outputs (blocks s self)) as [|out rest]; [done|].
  destruct (os_hessian_value (slots s out)) as [h|]; [|done].
  set (loop := for_each _ _ _).
  assert (Hloop1 : preserves (fun s' =>
            blocks s' = blocks s /\ slots s' = slots s /\ tape s' = tape s
            /\ bo_output (edges s' r) = bo_output (edges s r)
            /\ bo_saved_output (edges s' r) = bo_saved_output (edges s r)
            /\ bo_tlm_value (edges s' r) = bo_tlm_value (edges s r)
            /\ bo_adj_value (edges s' r) = bo_adj_value (edges s r))
          loop).
  { apply preserves_for_each. intros [] r0 _.
    apply preserves_hessian_outer_body.
    intros v s' (? & ? & ? & Ho & Hs & Ht & Hh).
    destruct (hessian_added_fields r0 v s' r) as (-> & -> & -> & ->). done. }
  destruct (Hloop1 s) as (? & ? & ? & ? & ? & ? & ?); [done|].
  repeat (split; [done|]).
  intros Hr.
  assert (Hloop2 : preserves (fun s' => edges s' r = edges s r) loop).
  { apply preserves_for_each. intros [] r0 Hr0.
    destruct (decide (r0 = r)) as [->|Hne].
    - destruct Hr as [Hr|Hr]; [done|].
      intros s' Hs'. unfold hessian_outer_body. step. rewrite Hs'.
      unfold recognized in Hr.
      destruct (class_of (bo_output (edges s r))) eqn:Hc; try done.
      by rewrite !isinstance_false by congruence.
    - apply preserves_hessian_outer_body.
      intros v s' Hs'. by rewrite hessian_added_ne. }
  by apply Hloop2.
Qed.

(** One iteration of the tangent loop adds nothing, or fails to find an
    output, or adds one value to the first output. *)
Lemma tlm_body_cases self F' sub r s :
  tlm_body self F' sub tt r s = (Ok tt, s)
  \/ tlm_body self F' sub tt r s = (Raise IndexError, s)
  \/ exists out rest v,
       outputs (blocks s self) = out :: rest
       /\ tlm_body self F' sub tt r s = (Ok tt, tlm_added out v s).
Proof.
  unfold tlm_body, get_outputs_0. step.
  destruct (bo_tlm_value (edges s r)) as [t|]; [|by left].
  destruct (outputs (blocks s self)) as [|out rest] eqn:Hout.
  - repeat match goal with
           | |- context [if ?b then _ else _] => destruct b
           end; rewrite ?Hout; auto.
  - repeat match goal with
           | |- context [if ?b then _ else _] => destruct b
           end; rewrite ?Hout; unfold modify; eauto 10.
Qed.

(** X3.  Whatever its outcome, tangent propagation writes nothing but the
    tangent accumulator of the node's first output slot: blocks, tape and
    every edge stay as they are, every slot keeps its checkpoint and both
    seeds, and every other slot is not touched at all. *)
Theorem evaluate_tlm_frame self s o :
  let s' := (evaluate_tlm self s).2 in
  blocks s' = blocks s /\ edges s' = edges s /\ tape s' = tape s
  /\ os_checkpoint (slots s' o) = os_checkpoint (slots s o)
  /\ os_adj_value (slots s' o) = os_adj_value (slots s o)
  /\ os_hessian_value (slots s' o) = os_hessian_value (slots s o)
  /\ (head (outputs (blocks s self)) <> Some o -> slots s' o = slots s o).
Proof.
  simpl. rewrite evaluate_tlm_shape.
  set (loop := for_each _ _ _).
  assert (Hslot : forall o' v s', 
            os_checkpoint (slots (tlm_added o' v s') o)
            = os_checkpoint (slots s' o)
            /\ os_adj_value (slots (tlm_added o' v s') o)
               = os_adj_value (slots s' o)
            /\ os_hessian_value (slots (tlm_added o' v s') o)
               = os_hessian_value (slots s' o)).
  { intros o' v s'. unfold tlm_added; simpl.
    destruct (decide (o' = o)) as [->|Hne].
    - by rewrite fn_lookup_insert.
    - by rewrite fn_lookup_insert_ne. }
  assert (Hloop1 : preserves (fun s' =>
            blocks s' = blocks s /\ edges s' = edges s /\ tape s' = tape s
            /\ os_checkpoint (slots s' o) = os_checkpoint (slots s o)
            /\ os_adj_value (slots s' o) = os_adj_value (slots s o)
            /\ os_hessian_value (slots s' o) = os_hessian_value (slots s o))
          loop).
  { apply preserves_for_each. intros [] r0 _. apply preserves_tlm_body.
    intros o' v s' (? & ? & ? & ? & ? & ?).
    destruct (Hslot o' v s') as (-> & -> & ->). done. }
  destruct (Hloop1 s) as (? & ? & ? & ? & ? & ?); [done|].
  repeat (split; [done|]).
  intros Ho.
  assert (Hloop2 : preserves (fun s' =>
            blocks s' = blocks s /\ slots s' o = slots s o) loop).
  { apply preserves_for_each. intros [] r0 _ s' [Hb Hs'].
    destruct (tlm_body_cases self (substituted_form s self)
                (substitution s (dependencies (blocks s self))) r0 s')
      as [->|[->|(out & rest & v & Hout & ->)]]; [done|done|].
    split; [done|]. unfold tlm_added; simpl.
    rewrite fn_lookup_insert_ne; [done|].
    intros ->. rewrite Hb in Hout. by rewrite Hout in Ho. }
  by apply Hloop2.
Qed.

(** *** The outcome of adjoint propagation *)

Lemma adj_body_bound Fm F' sub seed d r s :
  exists d' v,
    adj_body Fm F' sub seed (Some d) r s = (Ok (Some d'), adj_added r v s).
Proof.
  unfold adj_body. step.
  destruct (isinstance _ ClsExpression); [by eauto|].
  destruct (isinstance _ ClsFunction); [by eauto|].
  destruct (isinstance _ ClsConstant); by eauto.
Qed.

Lemma adj_body_binds Fm F' sub seed dc r s :
  recognized (bo_output (edges s r)) = true ->
  exists d' v,
    adj_body Fm F' sub seed dc r s = (Ok (Some d'), adj_added r v s).
Proof.
  unfold recognized, adj_body. step.
  destruct (class_of (bo_output (edges s r))) eqn:Hc; intros Hr; try done.
  - rewrite (isinstance_false _ ClsExpression), (isinstance_true _ ClsFunction)
      by congruence.
    by eauto.
  - rewrite (isinstance_false _ ClsExpression), (isinstance_false _ ClsFunction),
      (isinstance_true _ ClsConstant) by congruence.
    by eauto.
  - rewrite (isinstance_true _ ClsExpression) by congruence. by eauto.
Qed.

Lemma adj_body_unbound Fm F' sub seed r s :
  recognized (bo_output (edges s r)) = false ->
  adj_body Fm F' sub seed None r s = (Raise UnboundLocalError, s).
Proof.
  unfold recognized, adj_body. step.
  destruct (class_of (bo_output (edges s r))) eqn:Hc; intros Hr; try done.
  by rewrite !isinstance_false by congruence.
Qed.

Lemma adj_loop_bound Fm F' sub seed deps : forall d s,
  exists d' s',
    for_each (adj_body Fm F' sub seed) (Some d) deps s = (Ok (Some d'), s').
Proof.
  induction deps as [|r deps IH]; intros d s; [by eauto|].
  simpl. unfold bind at 1.
  destruct (adj_body_bound Fm F' sub seed d r s) as (d1 & v & ->).
  apply IH.
Qed.

(** X4.  With a seed on the output, adjoint propagation raises exactly
    when the first dependency is of no recognised class: then [dc] is
    unbound, [UnboundLocalError] is raised and the store is as before.
    If the first dependency is recognised the pass completes, whatever
    the classes of the later ones; with no dependency it changes
    nothing. *)
Theorem evaluate_adj_outcome s self out rest seed :
  outputs (blocks s self) = out :: rest ->
  os_adj_value (slots s out) = Some seed ->
  match dependencies (blocks s self) with
  | [] => evaluate_adj self s = (Ok tt, s)
  | r :: _ =>
      if recognized (bo_output (edges s r)) then
        (evaluate_adj self s).1 = Ok tt
      else evaluate_adj self s = (Raise UnboundLocalError, s)
  end.
Proof.
  intros Hout Hseed. rewrite evaluate_adj_shape, Hout, Hseed.
  destruct (dependencies (blocks s self)) as [|r deps]; [done|].
  destruct (recognized (bo_output (edges s r))) eqn:Hr.
  - simpl. unfold bind at 1. unfold bind at 1.
    destruct (adj_body_binds (form (blocks s self)) (substituted_form s self)
                (substitution s (r :: deps)) seed None r s Hr)
      as (d1 & v & ->).
    destruct (adj_loop_bound (form (blocks s self)) (substituted_form s self)
                (substitution s (r :: deps)) seed deps d1 (adj_added r v s))
      as (d' & s' & ->).
    done.
  - simpl. unfold bind at 1. unfold bind at 1.
    by rewrite adj_body_unbound.
Qed.

(** *** Hessian propagation without an adjoint seed or without tangents *)

Lemma hessian_inner_raises dform sub bo1 c1 W s l :
  recognized c1 = true ->
  (exists r2, r2 ∈ l /\ bo_tlm_value (edges s r2) <> None) ->
  for_each (hessian_inner_body dform sub None bo1 c1 W) tt l s
  = (Raise TypeError, s).
Proof.
  intros Hc. induction l as [|r l IH]; intros (r2 & Hin & Ht).
  - by apply elem_of_nil in Hin.
  - simpl. unfold bind at 1, hessian_inner_body at 1. step.
    destruct (bo_tlm_value (edges s r)) as [t|] eqn:Hr.
    + unfold recognized in Hc.
      destruct (class_of c1) eqn:Hk; try done.
      * by rewrite (isinstance_true _ ClsFunction) by done.
      * by rewrite (isinstance_false _ ClsFunction),
          (isinstance_false _ ClsExpression), (isinstance_true _ ClsConstant)
          by congruence.
      * by rewrite (isinstance_false _ ClsFunction),
          (isinstance_true _ ClsExpression) by congruence.
    + apply IH. exists r2. split; [|done].
      apply elem_of_cons in Hin as [->|Hin]; [done|done].
Qed.

Lemma hessian_outer_raises F' sub h deps s l :
  (exists r2, r2 ∈ deps /\ bo_tlm_value (edges s r2) <> None) ->
  (exists r1, r1 ∈ l /\ recognized (bo_output (edges s r1)) = true) ->
  for_each (hessian_outer_body F' sub h None deps) tt l s
  = (Raise TypeError, s).
Proof.
  intros Ht. induction l as [|r l IH]; intros (r1 & Hin & Hr1).
  - by apply elem_of_nil in Hin.
  - simpl. unfold bind at 1, hessian_outer_body at 1. step.
    destruct (recognized (bo_output (edges s r))) eqn:Hr.
    + assert (Hrest : forall dc W,
        hessian_outer_rest F' sub h None deps r (bo_output (edges s r))
          (dict_get sub (bo_output (edges s r)) (bo_output (edges s r)))
          dc W s = (Raise TypeError, s)).
      { intros dc W. unfold hessian_outer_rest. unfold bind at 1.
        by rewrite hessian_inner_raises. }
      unfold recognized in Hr.
      destruct (class_of (bo_output (edges s r))) eqn:Hk; try done.
      * rewrite (isinstance_true _ ClsFunction) by done. by rewrite Hrest.
      * rewrite (isinstance_false _ ClsFunction),
          (isinstance_false _ ClsExpression), (isinstance_true _ ClsConstant)
          by congruence.
        by rewrite Hrest.
      * rewrite (isinstance_false _ ClsFunction),
          (isinstance_true _ ClsExpression) by congruence.
        by rewrite Hrest.
    + unfold recognized in Hr.
      destruct (class_of (bo_output (edges s r))) eqn:Hk; try done.
      rewrite !isinstance_false by congruence.
      apply IH. exists r1. split; [|done].
      apply elem_of_cons in Hin as [->|Hin]; [|done].
      unfold recognized in Hr1. by rewrite Hk in Hr1.
Qed.

(** X5.  With a Hessian seed but no adjoint seed, as soon as one
    dependency is of a recognised class and one dependency carries a
    tangent value, Hessian propagation raises [TypeError] (the product of
    [None] and the assembled second derivative) before it has written
    anything: the store is as before. *)
Theorem evaluate_hessian_without_adj_seed s self out rest h r1 r2 :
  outputs (blocks s self) = out :: rest ->
  os_hessian_value (slots s out) = Some h ->
  os_adj_value (slots s out) = None ->
  r1 ∈ dependencies (blocks s self) ->
  recognized (bo_output (edges s r1)) = true ->
  r2 ∈ dependencies (blocks s self) ->
  bo_tlm_value (edges s r2) <> None ->
  evaluate_hessian self s = (Raise TypeError, s).
Proof.
  intros Hout Hh Ha Hr1 Hc1 Hr2 Ht2.
  rewrite evaluate_hessian_shape, Hout, Hh, Ha.
  apply hessian_outer_raises; eauto.
Qed.

Lemma hessian_inner_idle dform sub a bo1 c1 W l : forall s,
  (forall r, r ∈ l -> bo_tlm_value (edges s r) = None) ->
  for_each (hessian_inner_body dform sub a bo1 c1 W) tt l s = (Ok tt, s).
Proof.
  induction l as [|r l IH]; intros s Hnone; [done|].
  simpl. unfold bind at 1, hessian_inner_body at 1. step.
  rewrite (Hnone r) by (by left).
  apply IH. intros r' Hr'. apply Hnone. by right.
Qed.

Lemma hessian_outer_body_idle s F' sub h a deps r1 s' :
  same_inputs s s' ->
  (forall r, r ∈ deps -> bo_tlm_value (edges s r) = None) ->
  hessian_outer_body F' sub h a deps tt r1 s'
  = (Ok tt,
     let c := bo_output (edges s r1) in
     match test_space F' c with
     | Some V =>
         hessian_added r1
           (wrap c V
              (mul h (backend_assemble
                        (derivative F' (dict_get sub c c) (TestFunction V)))))
           s'
     | None => s'
     end).
Proof.
  intros Hs Hnone. unfold hessian_outer_body. step.
  destruct (Hs r1) as [-> _].
  assert (Hidle : forall dform c1 W,
    for_each (hessian_inner_body dform sub a r1 c1 W) tt deps s' = (Ok tt, s')).
  { intros. apply hessian_inner_idle. intros r Hr.
    destruct (Hs r) as [_ ->]. by apply Hnone. }
  unfold test_space, wrap, hessian_outer_rest.
  destruct (class_of (bo_output (edges s r1))) eqn:Hk.
  - rewrite (isinstance_true _ ClsFunction) by done.
    unfold bind at 1. rewrite Hidle.
    by rewrite (isinstance_false _ ClsExpression) by congruence.
  - rewrite (isinstance_false _ ClsFunction),
      (isinstance_false _ ClsExpression), (isinstance_true _ ClsConstant)
      by congruence.
    unfold bind at 1. by rewrite Hidle.
  - rewrite (isinstance_false _ ClsFunction),
      (isinstance_true _ ClsExpression) by congruence.
    unfold bind at 1. by rewrite Hidle.
  - by rewrite !isinstance_false by congruence.
Qed.

(** X6.  With a Hessian seed and no tangent value on any dependency,
    Hessian propagation completes whether or not the output has an
    adjoint seed, and gives each dependency of a recognised class exactly
    one contribution: Hessian seed x assembled first derivative of the
    substituted form (in a (value, space) pair for an expression). *)
Theorem evaluate_hessian_without_tangents s self out rest h :
  outputs (blocks s self) = out :: rest ->
  os_hessian_value (slots s out) = Some h ->
  (forall r, r ∈ dependencies (blocks s self) ->
             bo_tlm_value (edges s r) = None) ->
  evaluate_hessian self s
  = (Ok tt,
     foldl (fun s' r =>
              let c := bo_output (edges s r) in
              match test_space (substituted_form s self) c with
              | Some V =>
                  hessian_added r
                    (wrap c V
                       (mul h
                          (backend_assemble
                             (derivative (substituted_form s self)
                                (dict_get
                                   (substitution s
                                      (dependencies (blocks s self))) c c)
                                (TestFunction V)))))
                    s'
              | None => s'
              end)
           s (dependencies (blocks s self))).
Proof.
  intros Hout Hh Hnone. rewrite evaluate_hessian_shape, Hout, Hh.
  generalize (os_adj_value (slots s out)) as a. intros a.
  set (F' := substituted_form s self).
  set (sub := substitution s (dependencies (blocks s self))).
  assert (Hloop : forall l s', same_inputs s s' ->
    for_each (hessian_outer_body F' sub h a (dependencies (blocks s self)))
             tt l s'
    = (Ok tt,
       foldl (fun s' r =>
                let c := bo_output (edges s r) in
                match test_space F' c with
                | Some V =>
                    hessian_added r
                      (wrap c V
                         (mul h (backend_assemble
                                   (derivative F' (dict_get sub c c)
                                      (TestFunction V)))))
                      s'
                | None => s'
                end) s' l)).
  { induction l as [|r l IH]; intros s' Hs; [done|].
    simpl. unfold bind at 1.
    rewrite (hessian_outer_body_idle s) by done.
    apply IH. simpl.
    destruct (test_space F' (bo_output (edges s r))); [|done].
    by apply same_inputs_hessian_added. }
  apply Hloop, same_inputs_refl.
Qed.

(** *** A node without an output *)

Lemma tlm_loop_no_output self F' sub s l :
  outputs (blocks s self) = [] ->
  for_each (tlm_body self F' sub) tt l s
  = (if existsb (fun r =>
                   match bo_tlm_value (edges s r) with
                   | Some _ => recognized (bo_output (edges s r))
                   | None => false
                   end) l
     then Raise IndexError else Ok tt, s).
Proof.
  intros Hout. induction l as [|r l IH]; [done|].
  simpl. unfold bind at 1, tlm_body at 1, get_outputs_0, recognized. step.
  destruct (bo_tlm_value (edges s r)) as [t|]; [|exact IH].
  destruct (class_of (bo_output (edges s r))) eqn:Hk; simpl.
  - rewrite (isinstance_true _ ClsFunction) by done. by rewrite Hout.
  - rewrite (isinstance_false _ ClsFunction), (isinstance_true _ ClsConstant)
      by congruence.
    by rewrite Hout.
  - rewrite (isinstance_false _ ClsFunction), (isinstance_false _ ClsConstant),
      (isinstance_true _ ClsExpression) by congruence.
    by rewrite Hout.
  - rewrite !isinstance_false by congruence. exact IH.
Qed.

(** X7.  On a node that has no output yet (an [AssembleBlock] before
    [add_output]), adjoint and Hessian propagation raise [IndexError] at
    once and tangent propagation raises it exactly when some dependency
    of a recognised class carries a tangent value; in all three cases the
    store is as before. *)
Theorem propagation_without_output s self :
  outputs (blocks s self) = [] ->
  evaluate_adj self s = (Raise IndexError, s)
  /\ evaluate_hessian self s = (Raise IndexError, s)
  /\ evaluate_tlm self s
     = (if existsb (fun r =>
                      match bo_tlm_value (edges s r) with
                      | Some _ => recognized (bo_output (edges s r))
                      | None => false
                      end) (dependencies (blocks s self))
        then Raise IndexError else Ok tt, s).
Proof.
  intros Hout. split; [|split].
  - by rewrite evaluate_adj_shape, Hout.
  - by rewrite evaluate_hessian_shape, Hout.
  - rewrite evaluate_tlm_shape. by apply tlm_loop_no_output.
Qed.

(** *** The substitution *)

Lemma dict_get_set_eq {K V} `{EqDecision K} (d : list (K * V)) k v default :
  dict_get (dict_set d k v) k default = v.
Proof.
  induction d as [|[k' v'] d IH]; simpl.
  - by rewrite decide_True.
  - destruct (decide (k = k')) as [->|Hne]; simpl.
    + by rewrite decide_True.
    + by rewrite decide_False.
Qed.

Lemma dict_get_set_ne {K V} `{EqDecision K} (d : list (K * V)) k k' v default :
  k <> k' -> dict_get (dict_set d k v) k' default = dict_get d k' default.
Proof.
  intros Hne. induction d as [|[k0 v0] d IH]; simpl.
  - by rewrite decide_False by done.
  - destruct (decide (k = k0)) as [->|Hk]; simpl.
    + by rewrite !decide_False by done.
    + destruct (decide (k' = k0)); [done|]. apply IH.
Qed.

Lemma substitution_from_absent s l c default : forall acc,
  (forall r, r ∈ l -> bo_output (edges s r) <> c) ->
  dict_get (foldl (fun d r => dict_set d (bo_output (edges s r))
                                       (bo_saved_output (edges s r)))
                  acc l) c default
  = dict_get acc c default.
Proof.
  induction l as [|r l IH]; intros acc Habs; [done|].
  simpl. rewrite IH by (intros r' Hr'; apply Habs; by right).
  apply dict_get_set_ne, Habs. by left.
Qed.

(** X8.  The dictionary [replaced_coeffs] is read without touching the
    store, and it maps the coefficient of a dependency to the saved
    output of the last dependency that has this coefficient; a
    coefficient that no dependency has is not a key, so that
    [replaced_coeffs.get(c, c)] gives [c] back. *)
Theorem replaced_coeffs_lookup s l1 r l2 c default :
  (forall r', r' ∈ l2 -> bo_output (edges s r') <> bo_output (edges s r)) ->
  (forall r', r' ∈ l1 ++ r :: l2 -> bo_output (edges s r') <> c) ->
  exists replaced_coeffs,
    replaced_coeffs_of (l1 ++ r :: l2) s = (Ok replaced_coeffs, s)
    /\ dict_get replaced_coeffs (bo_output (edges s r)) default
       = bo_saved_output (edges s r)
    /\ dict_get replaced_coeffs c c = c.
Proof.
  intros Hlast Habs. exists (substitution s (l1 ++ r :: l2)).
  split; [apply replaced_coeffs_of_run|]. unfold substitution. split.
  - rewrite foldl_app. simpl.
    rewrite substitution_from_absent by done.
    apply dict_get_set_eq.
  - by rewrite substitution_from_absent.
Qed.

(** *** Two adjoint passes *)

Lemma substitution_ext s s' l :
  (forall r, bo_output (edges s' r) = bo_output (edges s r)
             /\ bo_saved_output (edges s' r) = bo_saved_output (edges s r)) ->
  substitution s' l = substitution s l.
Proof.
  intros H. unfold substitution. generalize (@nil (Coeff * Coeff)) as acc.
  induction l as [|r l IH]; intros acc; [done|].
  simpl. destruct (H r) as [-> ->]. apply IH.
Qed.

Lemma adj_fold_inputs (f : ref -> option Contribution) l : forall s,
  let s' := foldl (fun s'' r => match f r with
                                | Some v => adj_added r v s''
                                | None => s''
                                end) s l in
  blocks s' = blocks s /\ slots s' = slots s
  /\ forall r, bo_output (edges s' r) = bo_output (edges s r)
               /\ bo_saved_output (edges s' r) = bo_saved_output (edges s r).
Proof.
  induction l as [|r0 l IH]; intros s; [done|].
  simpl. destruct (IH (match f r0 with
                       | Some v => adj_added r0 v s
                       | None => s
                       end)) as (Hb & Hs & He).
  simpl in Hb, Hs, He. rewrite Hb, Hs.
  destruct (f r0) as [v|]; [|done].
  repeat split; try done; rewrite (proj1 (He r)) || rewrite (proj2 (He r));
    by destruct (adj_added_fields r0 v s r) as (? & ? & _).
Qed.

Lemma foldl_pointwise {X Y} (f g : X -> Y -> X) l : forall a,
  (forall a x, f a x = g a x) -> foldl f a l = foldl g a l.
Proof.
  induction l as [|x l IH]; intros a H; [done|].
  simpl. rewrite H. by apply IH.
Qed.

Lemma evaluate_adj_run s self out rest seed :
  outputs (blocks s self) = out :: rest ->
  os_adj_value (slots s out) = Some seed ->
  Forall (fun r => recognized (bo_output (edges s r)) = true)
         (dependencies (blocks s self)) ->
  evaluate_adj self s = (Ok tt, adj_spec s self seed).
Proof.
  intros Hout Hseed Hrec. rewrite evaluate_adj_shape, Hout, Hseed.
  destruct (adj_loop s (form (blocks s self)) (substituted_form s self)
              (substitution s (dependencies (blocks s self))) seed
              (dependencies (blocks s self)) s None) as [dc' E];
    [done|done|].
  unfold bind. by rewrite E.
Qed.

(** X9.  Two adjoint passes in a row on a node whose dependencies are
    distinct edges of recognised classes both complete, and the second
    merges into each accumulator the very contribution the first one
    merged: the contribution of a pass does not depend on what the
    accumulators hold. *)
Theorem evaluate_adj_twice s self out rest seed r :
  outputs (blocks s self) = out :: rest ->
  os_adj_value (slots s out) = Some seed ->
  Forall (fun r => recognized (bo_output (edges s r)) = true)
         (dependencies (blocks s self)) ->
  NoDup (dependencies (blocks s self)) ->
  r ∈ dependencies (blocks s self) ->
  let s1 := (evaluate_adj self s).2 in
  let s2 := (evaluate_adj self s1).2 in
  exists v,
    adj_contribution (form (blocks s self)) (substituted_form s self)
      (substitution s (dependencies (blocks s self))) seed
      (bo_output (edges s r)) = Some v
    /\ (evaluate_adj self s).1 = Ok tt
    /\ (evaluate_adj self s1).1 = Ok tt
    /\ bo_adj_value (edges s1 r) = Some (accumulate (bo_adj_value (edges s r)) v)
    /\ bo_adj_value (edges s2 r)
       = Some (accumulate (Some (accumulate (bo_adj_value (edges s r)) v)) v).
Proof.
  intros Hout Hseed Hrec Hnd Hr. simpl.
  rewrite (evaluate_adj_run s self out rest seed) by done. simpl.
  set (f := fun r => adj_contribution (form (blocks s self))
                       (substituted_form s self)
                       (substitution s (dependencies (blocks s self)))
                       seed (bo_output (edges s r))).
  assert (Hs1 : adj_spec s self seed
                = foldl (fun s'' r => match f r with
                                      | Some v => adj_added r v s''
                                      | None => s''
                                      end) s (dependencies (blocks s self)))
    by reflexivity.
  destruct (adj_fold_inputs f (dependencies (blocks s self)) s)
    as (Hb & Hs & He).
  simpl in Hb, Hs, He. rewrite <- Hs1 in Hb, Hs, He.
  assert (Hf : is_Some (f r)).
  { apply adj_contribution_recognized.
    rewrite Forall_forall in Hrec. apply Hrec. by apply list_elem_of_In. }
  destruct Hf as [v Hv]. exists v. split; [done|]. split; [done|].
  assert (Hsub : substitution (adj_spec s self seed)
                   (dependencies (blocks s self))
                 = substitution s (dependencies (blocks s self))).
  { by apply substitution_ext. }
  assert (Hspec : adj_spec (adj_spec s self seed) self seed
                  = foldl (fun s'' r => match f r with
                                        | Some v => adj_added r v s''
                                        | None => s''
                                        end)
                          (adj_spec s self seed)
                          (dependencies (blocks s self))).
  { unfold adj_spec at 1, substituted_form. rewrite Hb, Hsub.
    apply foldl_pointwise. intros s'' r0. unfold f, substituted_form.
    by rewrite (proj1 (He r0)). }
  rewrite (evaluate_adj_run (adj_spec s self seed) self out rest seed).
  - simpl. split; [done|].
    assert (H1 : bo_adj_value (edges (adj_spec s self seed) r)
                 = Some (accumulate (bo_adj_value (edges s r)) v)).
    { unfold adj_spec. by apply (adj_fold_lookup f). }
    split; [done|].
    rewrite Hspec, (adj_fold_lookup f _ _ r v) by done.
    by rewrite H1.
  - by rewrite Hb.
  - by rewrite Hs.
  - rewrite Hb. eapply Forall_impl; [|exact Hrec].
    intros r0 Hr0. simpl in *. by rewrite (proj1 (He r0)).
Qed.

(** *** Recompute *)

(** X10.  Recompute writes the checkpoint of the node's output and a
    slot that did not exist before, nothing else: blocks, tape and edges
    stay as they are, the output (a slot that exists already) keeps its
    adjoint seed, its tangent accumulator and its Hessian seed, and
    every other existing slot is untouched. *)
Theorem recompute_frame s self out rest o :
  outputs (blocks s self) = out :: rest ->
  out < next_slot s ->
  let s' := (recompute self s).2 in
  blocks s' = blocks s /\ edges s' = edges s /\ tape s' = tape s
  /\ os_adj_value (slots s' out) = os_adj_value (slots s out)
  /\ os_tlm_value (slots s' out) = os_tlm_value (slots s out)
  /\ os_hessian_value (slots s' out) = os_hessian_value (slots s out)
  /\ (o < next_slot s -> o <> out -> slots s' o = slots s o).
Proof.
  intros Hout Hlt. simpl. rewrite (recompute_run s self out rest Hout).
  simpl. rewrite fn_lookup_insert. simpl.
  rewrite fn_lookup_insert_ne by lia.
  repeat (split; [done|]).
  intros Ho Hne. rewrite !fn_lookup_insert_ne; [done|lia|done].
Qed.

(** *** Two annotated assemblies *)

Lemma assemble_block_output_of annotate F s :
  block_output_of (assemble annotate F s).2 = block_output_of s.
Proof.
  unfold assemble. destruct (is_float (backend_assemble F)) eqn:Hf; [|done].
  unfold bind at 1, create_overloaded_object at 1. cbv beta iota zeta.
  destruct annotate; [|done].
  destruct (AssembleBlock_init_run F
              (set_next_slot (S (next_slot s))
                 (set_slots (fun h => <[next_slot s := empty_slot]> h) s)))
    as (bl & E & _).
  unfold bind at 1. unfold bind at 1. rewrite E. done.
Qed.

(** X11.  Two annotated assemblies of scalar forms record two nodes, in
    the order of the calls, each linked to the output slot of its own
    result; the second call leaves the first node as it was built, and
    the two nodes refer to the same block output for a coefficient they
    share. *)
Theorem assemble_twice F1 F2 s :
  is_float (backend_assemble F1) = true ->
  is_float (backend_assemble F2) = true ->
  let b := next_block s in
  let o := next_slot s in
  let s1 := (assemble true F1 s).2 in
  let r2 := assemble true F2 s1 in
  r2.1 = Ok (mkAssembled (backend_assemble F2) None (Some (S o)))
  /\ tape r2.2 = tape s ++ [b; S b]
  /\ blocks r2.2 b = mkBlock F1 (init_dependencies s F1) [o]
  /\ blocks r2.2 (S b) = mkBlock F2 (init_dependencies s F2) [S o]
  /\ forall b', b' <> b -> b' <> S b -> blocks r2.2 b' = blocks s b'.
Proof.
  intros Hf1 Hf2. simpl.
  pose proof (assemble_block_output_of true F1 s) as Hbo.
  destruct (assemble_float_run true F1 s Hf1)
    as (s1 & E1 & _ & Hn1 & _ & Ht1 & Hb1 & Hblk1 & Hoth1).
  rewrite E1 in Hbo |- *. simpl in Hbo |- *.
  destruct (assemble_float_run true F2 s1 Hf2)
    as (s2 & E2 & _ & _ & _ & Ht2 & _ & Hblk2 & Hoth2).
  rewrite E2. simpl. rewrite Hn1, Hb1 in *.
  split; [done|]. split; [by rewrite Ht2, Ht1, <- app_assoc|].
  split; [rewrite Hoth2 by lia; done|].
  split.
  - rewrite Hblk2. unfold init_dependencies. by rewrite Hbo.
  - intros b' H1 H2. rewrite Hoth2 by done. by apply Hoth1.
Qed.

End Propagation.

Section StrTheory.
Context `{B : Backend} `{A : !Accumulators} `{P : !FormPrinter}.

Lemma invoke_all_blocks ops self s :
  blocks (invoke_all ops self s) = blocks s.
Proof.
  unfold invoke_all. revert s.
  induction ops as [|op ops IH]; intros s; [done|].
  simpl. rewrite IH. apply keeps_invoke.
Qed.

(** X12.  The string of a node that an annotated assembly recorded is
    the string of the assembled form, and stays so after any sequence of
    recompute, adjoint, tangent and Hessian invocations on the node;
    taking it changes nothing. *)
Theorem str_of_recorded_node F s ops :
  is_float (backend_assemble F) = true ->
  let b := next_block s in
  let s' := invoke_all ops b (assemble true F s).2 in
  AssembleBlock_str b s' = (Ok (form_str F), s').
Proof.
  intros Hf. simpl.
  destruct (assemble_float_run true F s Hf)
    as (s1 & E1 & _ & _ & _ & _ & _ & Hblk & _).
  rewrite E1. simpl.
  unfold AssembleBlock_str, bind, get_form, gets, ret.
  by rewrite invoke_all_blocks, Hblk.
Qed.

End StrTheory.

(** ** Properties of [assemble_system] *)

Module SystemTheory.
Import stdpp.strings stdpp.gmap.
Import System.

Section AssembleSystem.
Context `{B : Backend} `{SB : SystemBackend}.

(** X13.  With fewer than two positional arguments [assemble_system]
    raises [IndexError], whatever the keyword arguments, and leaves the
    store alone. *)
Theorem assemble_system_needs_two_forms
    (args : list PyObj) (kwargs : gmap string PyObj) s :
  length args < 2 ->
  assemble_system args kwargs s = (Raise IndexError, s).
Proof.
  intros Hlen. destruct args as [|a [|b args]]; simpl in Hlen; try lia; done.
Qed.

(** X14.  With at least two positional arguments [assemble_system]
    returns the backend's matrix and vector, the first argument attached
    as the form of the matrix and the second as the form of the vector,
    and one and the same boundary-condition value attached to both: the
    keyword [bcs] if it is given, else the third positional argument if
    there is one, else the empty list.  It registers nothing: the store
    is as before. *)
Theorem assemble_system_attaches
    (A_form b_form : PyObj) (more : list PyObj) (kwargs : gmap string PyObj) s :
  let args := A_form :: b_form :: more in
  let Ab := backend_assemble_system args kwargs in
  let bcs :=
    match kwargs !! "bcs"%string with
    | Some v => BcsOf v
    | None => match more with
              | v :: _ => BcsOf v
              | [] => BcsEmpty
              end
    end in
  assemble_system args kwargs s
  = (Ok (mkAttributed Ab.1 A_form bcs, mkAttributed Ab.2 b_form bcs), s).
Proof.
  simpl. unfold assemble_system, getitem, bind, ret. simpl.
  destruct (kwargs !! "bcs"%string) as [v|]; [done|].
  destruct more as [|v more]; by simpl.
Qed.

End AssembleSystem.

Lemma assemble_system_needs_two_forms_witness :
  assemble_system (B := Sym.backend) [7] {["bcs"%string := 3]} Sym.st_idle
  = (Raise IndexError, Sym.st_idle).
Proof.
  apply (assemble_system_needs_two_forms (B := Sym.backend)). simpl. lia.
Defined.

End SystemTheory.

(** ** Properties of the backend selection *)

Module PackageTheory.
Import stdpp.strings stdpp.gmap.
Import Package.

Section Selection.
Context {PyModule : Type} (mod_name : PyModule -> string).
Context (find_module : string -> option PyModule).

(** X15.  The backend selection fails (no module [fenics] to import)
    exactly when no backend is registered in [sys.modules], [fenics] is
    not loaded yet and cannot be found.  A registered backend is enough:
    [fenics] is then never looked for. *)
Theorem backend_selection_fails_iff (sys_modules : gmap string PyModule) :
  select_backend find_module sys_modules = None
  <-> sys_modules !! "backend"%string = None
      /\ sys_modules !! "fenics"%string = None
      /\ find_module "fenics"%string = None.
Proof.
  unfold select_backend, import_module.
  destruct (sys_modules !! "backend"%string) as [m|] eqn:Hb; simpl.
  - rewrite Hb. simpl. split; [done|]. by intros [? _].
  - destruct (sys_modules !! "fenics"%string) as [f|] eqn:Hf; simpl.
    + rewrite lookup_insert_eq. simpl. split; [done|]. by intros (_ & ? & _).
    + destruct (find_module "fenics"%string) as [f|]; simpl.
      * rewrite lookup_insert_eq. simpl. split; [done|]. by intros (_ & _ & ?).
      * done.
Qed.


(** X17.  Running the selection again, with [sys.modules] as the first
    run left it, succeeds with the same backend and leaves [sys.modules]
    as it is, whether or not [fenics] can still be found; and so it does
    on any later [sys.modules] that still holds what the first run
    left. *)
Theorem backend_selection_idempotent (find_module' : string -> option PyModule)
    (sys_modules : gmap string PyModule) p :
  select_backend find_module sys_modules = Some p ->
  select_backend find_module' (sys_modules_after p) = Some p
  /\ forall later, sys_modules_after p ⊆ later ->
       select_backend find_module' later = Some (mkSelected later (backend p)).
Proof.
  intros Hsel.
  assert (Hb : sys_modules_after p !! "backend"%string = Some (backend p)).
  { revert Hsel. unfold select_backend, import_module.
    destruct (sys_modules !! "backend"%string) as [m|] eqn:Hb; simpl.
    - rewrite Hb. simpl. by intros [= <-].
    - destruct (sys_modules !! "fenics"%string) as [f|]; simpl.
      + rewrite lookup_insert_eq. simpl. intros [= <-]. simpl.
        by rewrite lookup_insert_eq.
      + destruct (find_module "fenics"%string) as [f|]; simpl; [|done].
        rewrite lookup_insert_eq. simpl. intros [= <-]. simpl.
        by rewrite lookup_insert_eq. }
  assert (Hany : forall later, sys_modules_after p ⊆ later ->
            select_backend find_module' later
            = Some (mkSelected later (backend p))).
  { intros later Hsub.
    assert (Hl : later !! "backend"%string = Some (backend p))
      by (eapply lookup_weaken; [exact Hb | exact Hsub]).
    unfold select_backend. rewrite Hl. simpl. by rewrite Hl. }
  split; [|exact Hany].
  rewrite (Hany (sys_modules_after p)) by done. by destruct p.
Qed.

End Selection.

End PackageTheory.

(** ** The further properties at work on the symbolic backend *)

Section MoreExamples.
Import Sym SymExtra.

Lemma evaluate_adj_frame_witness :
  edges (evaluate_adj 0 st_adj).2 5 = edges st_adj 5.
Proof.
  destruct (evaluate_adj_frame 0 st_adj 5) as (_ & _ & _ & _ & _ & _ & _ & H).
  apply H. apply (bool_decide_unpack _). vm_compute. exact I.
Defined.

Lemma evaluate_hessian_frame_witness :
  edges (evaluate_hessian 0 st_hessian).2 5 = edges st_hessian 5.
Proof.
  destruct (evaluate_hessian_frame 0 st_hessian 5)
    as (_ & _ & _ & _ & _ & _ & _ & H).
  apply H. left. apply (bool_decide_unpack _). vm_compute. exact I.
Defined.

Lemma evaluate_tlm_frame_witness :
  slots (evaluate_tlm 0 st_tlm).2 4 = slots st_tlm 4.
Proof.
  destruct (evaluate_tlm_frame 0 st_tlm 4) as (_ & _ & _ & _ & _ & _ & H).
  apply H. simpl. discriminate.
Defined.

Lemma evaluate_adj_outcome_witness :
  evaluate_adj 0 st_other = (Raise UnboundLocalError, st_other)
  /\ (evaluate_adj 0 st_stale).1 = Ok tt.
Proof.
  split.
  - exact (evaluate_adj_outcome st_other 0 0 [] (Lit 3) eq_refl eq_refl).
  - exact (evaluate_adj_outcome st_stale 0 0 [] (Lit 3) eq_refl eq_refl).
Defined.

Lemma evaluate_hessian_without_adj_seed_witness :
  evaluate_hessian 0 st_no_adj = (Raise TypeError, st_no_adj).
Proof.
  apply (evaluate_hessian_without_adj_seed st_no_adj 0 0 [] (Lit 5) 0 0);
    try reflexivity; try (by left); discriminate.
Defined.

Lemma evaluate_hessian_without_tangents_witness :
  (evaluate_hessian 0 st_curvature).1 = Ok tt
  /\ bo_hessian_value (edges (evaluate_hessian 0 st_curvature).2 0)
     = Some (Bare
               (Times (Lit 5)
                  (Assembled_
                     (Derivative (Replace (Base 10 0 [u]) [(u, saved u)])
                        (saved u) (Test (SpaceOf u)))))).
Proof.
  rewrite (evaluate_hessian_without_tangents st_curvature 0 0 [] (Lit 5)).
  - split; reflexivity.
  - reflexivity.
  - reflexivity.
  - intros r _. reflexivity.
Defined.

Lemma propagation_without_output_witness :
  evaluate_adj 0 st_no_output = (Raise IndexError, st_no_output)
  /\ evaluate_hessian 0 st_no_output = (Raise IndexError, st_no_output)
  /\ evaluate_tlm 0 st_no_output = (Raise IndexError, st_no_output).
Proof. exact (propagation_without_output st_no_output 0 eq_refl). Defined.

Lemma replaced_coeffs_lookup_witness :
  exists replaced_coeffs,
    replaced_coeffs_of [0; 1; 2] st_adj = (Ok replaced_coeffs, st_adj)
    /\ dict_get replaced_coeffs k x = saved k
    /\ dict_get replaced_coeffs x x = x.
Proof.
  apply (replaced_coeffs_lookup st_adj [0] 1 [2] x x).
  - intros r Hr. apply list_elem_of_In in Hr. simpl in Hr.
    destruct Hr as [<-|[]]. discriminate.
  - intros r Hr. apply list_elem_of_In in Hr. simpl in Hr.
    destruct Hr as [<-|[<-|[<-|[]]]]; discriminate.
Defined.

Lemma evaluate_adj_twice_witness :
  exists v,
    bo_adj_value (edges (evaluate_adj 0 st_adj).2 0) = Some (accumulate None v)
    /\ bo_adj_value (edges (evaluate_adj 0 (evaluate_adj 0 st_adj).2).2 0)
       = Some (accumulate (Some (accumulate None v)) v).
Proof.
  destruct (evaluate_adj_twice st_adj 0 0 [] (Lit 3) 0)
    as (v & _ & _ & _ & H1 & H2).
  - reflexivity.
  - reflexivity.
  - repeat constructor.
  - apply (bool_decide_unpack _). vm_compute. exact I.
  - by left.
  - exists v. split; [exact H1 | exact H2].
Defined.

Lemma recompute_frame_witness :
  os_adj_value (slots (recompute 0 st_adj).2 0) = Some (Lit 3)
  /\ edges (recompute 0 st_adj).2 = edges st_adj.
Proof.
  destruct (recompute_frame st_adj 0 0 [] 0 eq_refl)
    as (_ & He & _ & Ha & _).
  - simpl. lia.
  - split; [exact Ha | exact He].
Defined.

Lemma assemble_twice_witness :
  tape (assemble true J (assemble true J st_adj).2).2 = [0; 1; 2].
Proof.
  destruct (assemble_twice (B := backend) J J st_adj eq_refl eq_refl) as (_ & H & _).
  exact H.
Defined.

Lemma str_of_recorded_node_witness :
  (AssembleBlock_str 1
     (invoke_all [OpRecompute; OpAdj; OpTlm; OpHessian] 1
        (assemble true J st_adj).2)).1
  = Ok J.
Proof.
  rewrite (str_of_recorded_node (B := backend) J st_adj
             [OpRecompute; OpAdj; OpTlm; OpHessian] eq_refl).
  reflexivity.
Defined.

End MoreExamples.

Module PackageExamples.
Import stdpp.strings stdpp.gmap.
Import Package SymExtra.


Lemma backend_selection_idempotent_witness :
  select_backend (fun _ => None)
    (<["backend"%string := "fenics"%string]>
       (<["fenics"%string := "fenics"%string]> ∅))
  = Some (mkSelected
            (<["backend"%string := "fenics"%string]>
               (<["fenics"%string := "fenics"%string]> ∅))
            "fenics"%string).
Proof.
  assert (E : select_backend find_any ∅
              = Some (mkSelected
                        (<["backend"%string := "fenics"%string]>
                           (<["fenics"%string := "fenics"%string]> ∅))
                        "fenics"%string))
    by (vm_compute; reflexivity).
  exact (proj1 (PackageTheory.backend_selection_idempotent
                  find_any (fun _ => None) ∅ _ E)).
Defined.

End PackageExamples.
